(** * Solana Workbench, main process: a shallow embedding of [src/main/main.ts]

    The embedding covers the functional core of the Electron main process:
    the start-up creation of the store directories, the cluster probe
    [connectSOL], the keypair store ([localKeypair], [keypairs],
    [addKeypair]), the funding operation [airdropTokens], the validator
    supervisor ([runValidator], [validatorLogs]) and the seven [ipcMain.on]
    handlers.  Window, menu and updater code is not modelled.

    Asynchronous functions are modelled as computations in a state-and-error
    monad over a [World]: a rejected promise (or a thrown exception) is an
    [Err] outcome, and every [await] is a monadic bind.  The libraries the
    program calls (web3.js, the JavaScript regular-expression engine,
    [JSON.parse]) and the outside world (file system contents, subprocess
    outputs, the answers of the RPC node) are parameters. *)

From Stdlib Require Import ZArith Ascii String Strings.Byte List Lia.
From stdpp Require Import base option list gmap strings pretty.

Local Open Scope string_scope.
Local Open Scope list_scope.
Local Open Scope Z_scope.

#[global] Instance byte_eq_decision : EqDecision byte := Byte.byte_eq_dec.

(** ** Outcomes of fallible operations *)

Inductive error : Type :=
  | ENOENT          (* no such file or directory *)
  | ENOTDIR         (* a path component is not a directory *)
  | EISDIR          (* illegal operation on a directory *)
  | EEXIST          (* file already exists *)
  | ELOOP           (* too many levels of symbolic links *)
  | BadSecretKey    (* Keypair.fromSecretKey rejected the bytes *)
  | RpcFailure      (* an RPC call rejected *)
  | ExecFailure     (* the child process could not run or exited non-zero *)
  | MaxBufferExceeded
  | SyntaxError.    (* invalid regular expression or invalid JSON *)

Inductive result (A : Type) : Type :=
  | Ok (a : A)
  | Err (e : error).
Arguments Ok {A} a.
Arguments Err {A} e.

Definition is_Ok {A} (r : result A) : bool :=
  match r with Ok _ => true | Err _ => false end.


(** ** The JavaScript built-ins used by the program *)

Module Js.

(** [s.split(sep)] for a one-character separator: never returns the empty
    array, [''.split('\n')] is [['']]. *)
Fixpoint split (sep : ascii) (s : string) : list string :=
  match s with
  | EmptyString => [EmptyString]
  | String c s' =>
      if Ascii.eqb c sep then EmptyString :: split sep s'
      else match split sep s' with
           | x :: xs => String c x :: xs
           | [] => [String c EmptyString]
           end
  end.

(** [arr.join(sep)]. *)
Fixpoint join (sep : string) (l : list string) : string :=
  match l with
  | [] => EmptyString
  | [x] => x
  | x :: xs => x +:+ sep +:+ join sep xs
  end.

Definition Math_max (a b : Z) : Z := Z.max a b.

(** [arr.slice(start)]: a negative [start] counts from the end. *)
Definition slice {A} (start : Z) (l : list A) : list A :=
  let len := Z.of_nat (length l) in
  let k := if start <? 0 then Z.max (len + start) 0 else Z.min start len in
  drop (Z.to_nat k) l.

(** [arr.filter(cb)] for a callback that may throw: the callback runs on
    the elements in order and the first exception aborts the call. *)
Fixpoint filter {A} (cb : A -> result bool) (l : list A) : result (list A) :=
  match l with
  | [] => Ok []
  | x :: xs =>
      match cb x with
      | Err e => Err e
      | Ok keep =>
          match filter cb xs with
          | Err e => Err e
          | Ok ys => Ok (if keep then x :: ys else ys)
          end
      end
  end.

(** The regular-expression engine.  [RegExp_new src] is [new RegExp(src)]
    ([None] when the constructor throws a SyntaxError); [RegExp_exec r s]
    tells whether [r.exec(s)] is non-null, that is whether [r] matches
    somewhere in [s]. *)
Class RegExpEngine : Type := {
  regexp : Type;
  RegExp_new : string -> option regexp;
  RegExp_exec : regexp -> string -> bool
}.

(** [s.match(pattern)] with a string [pattern]: the pattern is compiled with
    [new RegExp(pattern)] and the result is an array (truthy) or [null]
    (falsy).  Only the truthiness is kept. *)
Definition String_match `{RegExpEngine} (s pattern : string) : result bool :=
  match RegExp_new pattern with
  | None => Err SyntaxError
  | Some r => Ok (RegExp_exec r s)
  end.

(** [s.includes(pattern)]: literal substring search, for comparison. *)
Fixpoint is_prefix (p s : string) : bool :=
  match p, s with
  | EmptyString, _ => true
  | String a p', String b s' => Ascii.eqb a b && is_prefix p' s'
  | String _ _, EmptyString => false
  end.

Fixpoint String_includes (s pattern : string) : bool :=
  is_prefix pattern s ||
  match s with
  | EmptyString => false
  | String _ s' => String_includes s' pattern
  end.

End Js.

(** ** Validator logs: the text processing of [validatorLogs] *)

Definition MAX_TAIL_LINES : Z := 10000.
Definition MAX_DISPLAY_LINES : Z := 30.
Definition maxBuffer : Z := 104857600.

Definition newline : ascii := "010"%char.
Definition nl : string := String newline EmptyString.

Section LogText.
Context `{Js.RegExpEngine}.

(** [stderr.split('\n').filter((s) => s.match(filter))] *)
Definition matching_lines (stderr filter : string) : result (list string) :=
  Js.filter (fun s => Js.String_match s filter) (Js.split newline stderr).

(** [lines.slice(Math.max(lines.length - MAX_DISPLAY_LINES, 1))] *)
Definition display_window (lines : list string) : list string :=
  Js.slice (Js.Math_max (Z.of_nat (length lines) - MAX_DISPLAY_LINES) 1) lines.

(** The lines that [validatorLogs] returns, before they are joined. *)
Definition displayed_lines (stderr filter : string) : result (list string) :=
  match matching_lines stderr filter with
  | Err e => Err e
  | Ok lines => Ok (display_window lines)
  end.

(** The value of [validatorLogs] once the subprocess has delivered
    [stderr]. *)
Definition render_logs (stderr filter : string) : result string :=
  match displayed_lines stderr filter with
  | Err e => Err e
  | Ok shown => Ok (Js.join nl shown)
  end.

End LogText.

(** ** The file system seen by the program

    Paths are absolute and kept as their list of components, so that
    [path.join(dir, name)] appends one component ([name] is a single
    component: the program joins a directory with a file name).  The file
    system is a finite map from paths to nodes.  As in [stat(2)],
    [readFileSync], [writeFileSync], [existsSync] and [stat] follow a symbolic
    link at the last component of a path; the directories on the way to it are
    taken literally. *)

Module Fs.

Definition path : Type := list string.

Inductive node : Type :=
  | File (data : list byte)
  | Dir
  | Symlink (target : path).

#[global] Instance node_eq_decision : EqDecision node.
Proof. solve_decision. Defined.

(** [path.join(dir, name)] for a [name] of one path component (not empty, not
    [.] or [..], without a separator); for other names [path.join]
    normalises the result, which this function does not. *)
Definition path_join (dir : path) (name : string) : path := dir ++ [name].

Definition dirname (p : path) : path := removelast p.

(** The node at a path; the root of the tree is a directory. *)
Definition node_at (fs : gmap path node) (p : path) : option node :=
  match p with
  | [] => Some Dir
  | _ => fs !! p
  end.

(** What a path leads to once symbolic links are followed. *)
Inductive target : Type :=
  | NoEntry (at_path : path)
  | RegularFile (at_path : path) (data : list byte)
  | Directory (at_path : path).

Definition MAXSYMLINKS : nat := 40.

Fixpoint follow (fuel : nat) (fs : gmap path node) (p : path) : result target :=
  match node_at fs p with
  | None => Ok (NoEntry p)
  | Some (File d) => Ok (RegularFile p d)
  | Some Dir => Ok (Directory p)
  | Some (Symlink t) =>
      match fuel with
      | O => Err ELOOP
      | S fuel' => follow fuel' fs t
      end
  end.

Record Stats : Type := { isFile : bool; isDirectory : bool }.

Definition stat (fs : gmap path node) (p : path) : result Stats :=
  match follow MAXSYMLINKS fs p with
  | Err e => Err e
  | Ok (NoEntry _) => Err ENOENT
  | Ok (RegularFile _ _) => Ok {| isFile := true; isDirectory := false |}
  | Ok (Directory _) => Ok {| isFile := false; isDirectory := true |}
  end.

(** [fs.existsSync] never throws: any failure is reported as [false]. *)
Definition existsSync (fs : gmap path node) (p : path) : bool :=
  is_Ok (stat fs p).

(** [fs.mkdirSync(p)] without the recursive option. *)
Definition mkdirSync (fs : gmap path node) (p : path) : result (gmap path node) :=
  match p with
  | [] => Err EEXIST
  | _ =>
      match node_at fs (dirname p) with
      | None => Err ENOENT
      | Some Dir =>
          match fs !! p with
          | Some _ => Err EEXIST
          | None => Ok (<[p := Dir]> fs)
          end
      | Some _ => Err ENOTDIR
      end
  end.

(** The name of [k] when [k] is an entry directly inside [dir]. *)
Definition entry_name (dir k : path) : option string :=
  match last k with
  | Some name => if decide (removelast k = dir) then Some name else None
  | None => None
  end.

(** [fs.promises.readdir(p)]: the names directly inside the directory, in
    the enumeration order of the map. *)
Definition readdir (fs : gmap path node) (p : path) : result (list string) :=
  match follow MAXSYMLINKS fs p with
  | Err e => Err e
  | Ok (NoEntry _) => Err ENOENT
  | Ok (RegularFile _ _) => Err ENOTDIR
  | Ok (Directory q) => Ok (omap (fun kv => entry_name q (fst kv)) (map_to_list fs))
  end.

Definition readFileSync (fs : gmap path node) (p : path) : result (list byte) :=
  match follow MAXSYMLINKS fs p with
  | Err e => Err e
  | Ok (NoEntry _) => Err ENOENT
  | Ok (Directory _) => Err EISDIR
  | Ok (RegularFile _ d) => Ok d
  end.

(** [fs.writeFileSync(p, data)]: creates the file or replaces its
    contents. *)
Definition writeFileSync (fs : gmap path node) (p : path) (data : list byte)
  : result (gmap path node) :=
  match follow MAXSYMLINKS fs p with
  | Err e => Err e
  | Ok (Directory _) => Err EISDIR
  | Ok (RegularFile q _) => Ok (<[q := File data]> fs)
  | Ok (NoEntry q) =>
      match node_at fs (dirname q) with
      | None => Err ENOENT
      | Some Dir => Ok (<[q := File data]> fs)
      | Some _ => Err ENOTDIR
      end
  end.

(** Every entry lies in a directory. *)
Definition well_formed (fs : gmap path node) : Prop :=
  forall p n, fs !! p = Some n -> p <> [] /\ node_at fs (dirname p) = Some Dir.

End Fs.

(** ** Library interfaces *)

Record Keypair : Type := { publicKey : list byte; secretKey : list byte }.

(** The part of [@solana/web3.js] used by the program. [Keypair_fromSeed] is
    what [Keypair.generate()] applies to 32 bytes drawn from the secure random
    source; [Keypair_fromSecretKey] is [None] when the library throws;
    [PublicKey_toString] is the base-58 text of a public key. *)
Class Web3 : Type := {
  Keypair_fromSeed : list byte -> Keypair;
  Keypair_fromSecretKey : list byte -> option Keypair;
  PublicKey_toString : list byte -> string
}.

(** What the program relies on from the library: the secret bytes of a
    keypair generated from a 32-byte seed are accepted and give that keypair
    back. *)
Class Web3Laws `{Web3} : Prop := {
  fromSecretKey_generated :
    forall seed,
      length seed = 32%nat ->
      Keypair_fromSecretKey (secretKey (Keypair_fromSeed seed))
      = Some (Keypair_fromSeed seed)
}.

(** [JSON.parse]: [None] when it throws. *)
Class Json : Type := {
  json : Type;
  JSON_parse : string -> option json
}.

(** ** The outside world *)

Record proc_output : Type := {
  exit_code : Z;
  stdout : string;
  stderr : string
}.

Record Env : Type := {
  homedir : Fs.path;                                 (* os.homedir() *)
  child_process : string -> proc_output;             (* what a shell command does *)
  randomBytes : nat -> list byte;                    (* successive random draws *)
  getEpochInfo_reply : result unit;
  requestAirdrop_reply : list byte -> Z -> result string;
  confirmTransaction_reply : string -> result unit
}.

(** ** Effects: the world, its trace, and the monad of asynchronous code *)

Record SolState : Type := { running : bool; keyId : string }.

Section Program.
Context `{Web3} `{Js.RegExpEngine} `{Json}.
Variable env : Env.

(** What [event.reply(channel, ...args)] carries. *)
Inductive payload : Type :=
  | NoArgs                              (* reply with a channel name only *)
  | EmptyObject                         (* {} *)
  | State (s : SolState)
  | Text (s : string)
  | PublicKeys (l : list string)
  | Parsed (j : json).

Inductive rpc_call : Type :=
  | GetEpochInfo
  | RequestAirdrop (to : list byte) (lamports : Z)
  | ConfirmTransaction (signature : string).

Inductive event : Type :=
  | NewConnection (url : string)        (* builds a client object, opens no socket *)
  | Rpc (call : rpc_call)               (* a request sent to the RPC node *)
  | Exec (command : string)             (* a child process is started *)
  | ConsoleLog (text : string)
  | Reply (channel : string) (p : payload).

Definition is_network_call (e : event) : bool :=
  match e with Rpc _ => true | _ => false end.

Definition is_reply (e : event) : bool :=
  match e with Reply _ _ => true | _ => false end.

Record World : Type := {
  fs : gmap Fs.path Fs.node;
  draws : nat;                          (* random draws consumed so far *)
  trace : list event
}.

(** An asynchronous computation: from a world to an outcome and the world it
    leaves.  Effects that happened before a failure stay. *)
Definition M (A : Type) : Type := World -> result A * World.

Definition ret {A} (a : A) : M A := fun w => (Ok a, w).

Definition bind {A B} (m : M A) (k : A -> M B) : M B :=
  fun w => match m w with
           | (Ok a, w') => k a w'
           | (Err e, w') => (Err e, w')
           end.

Definition throw {A} (e : error) : M A := fun w => (Err e, w).

Definition lift {A} (r : result A) : M A := fun w => (r, w).

(** [try { body } catch (error) { ... }]: the outcome of [body] is handed
    over as a value. *)
Definition try_ {A} (body : M A) : M (result A) :=
  fun w => match body w with (r, w') => (Ok r, w') end.

Definition emit (e : event) : M unit :=
  fun w => (Ok tt, {| fs := fs w; draws := draws w; trace := trace w ++ [e] |}).

Definition read_fs {A} (op : gmap Fs.path Fs.node -> result A) : M A :=
  fun w => (op (fs w), w).

Definition write_fs (op : gmap Fs.path Fs.node -> result (gmap Fs.path Fs.node)) : M unit :=
  fun w => match op (fs w) with
           | Ok fs' => (Ok tt, {| fs := fs'; draws := draws w; trace := trace w |})
           | Err e => (Err e, w)
           end.

Definition random_seed : M (list byte) :=
  fun w => (Ok (randomBytes env (draws w)),
            {| fs := fs w; draws := S (draws w); trace := trace w |}).

(** [Promise.all(ps)] over promises made by calling async functions one
    after the other: every body has run; the result is the list of values,
    or the rejection of the first promise that rejected. *)
Fixpoint Promise_all {A} (ps : list (M A)) : M (list A) :=
  fun w =>
    match ps with
    | [] => (Ok [], w)
    | p :: ps' =>
        match p w with
        | (r, w1) =>
            match Promise_all ps' w1 with
            | (rs, w2) =>
                (match r, rs with
                 | Ok a, Ok l => Ok (a :: l)
                 | Err e, _ => Err e
                 | Ok _, Err e => Err e
                 end, w2)
            end
        end
    end.

(** ToBoolean of an object is true, and a promise is an object. *)
Definition ToBoolean_promise {A} (p : M A) : bool := true.

End Program.

Notation "'await' x <- m 'in' k" := (bind m (fun x => k))
  (at level 10, x name, m at level 100, k at level 200).
Notation "'call' m 'in' k" := (bind m (fun _ => k))
  (at level 10, m at level 100, k at level 200).

(** ** The program *)

Section Main.
Context `{Web3} `{Js.RegExpEngine} `{Json}.
Variable env : Env.

(** *** Primitive operations, each leaving its mark in the trace *)

Definition console_log (text : string) : M unit := emit (ConsoleLog text).

(** [new web3.Connection(url)] *)
Definition new_Connection (url : string) : M unit := emit (NewConnection url).

Definition getEpochInfo : M unit :=
  call emit (Rpc GetEpochInfo) in
  lift (getEpochInfo_reply env).

Definition requestAirdrop (to : list byte) (lamports : Z) : M string :=
  call emit (Rpc (RequestAirdrop to lamports)) in
  lift (requestAirdrop_reply env to lamports).

Definition confirmTransaction (signature : string) : M unit :=
  call emit (Rpc (ConfirmTransaction signature)) in
  lift (confirmTransaction_reply env signature).

(** What the promisified [exec] resolves to, or how it rejects, for a child
    process that ended with output [out]. *)
Definition exec_outcome (limit : Z) (out : proc_output) : result proc_output :=
  if negb (exit_code out =? 0) then Err ExecFailure
  else if (limit <? Z.of_nat (String.length (stdout out)))
          || (limit <? Z.of_nat (String.length (stderr out)))
       then Err MaxBufferExceeded
       else Ok out.

(** [util.promisify(exec)(command, { maxBuffer })].  Of a child process the
    model keeps that it was started and what it returns (exit code, standard
    output, standard error); what the process itself does to the file system
    or over the network is not part of the world. *)
Definition exec_promisified (command : string) (limit : Z) : M proc_output :=
  call emit (Exec command) in
  lift (exec_outcome limit (child_process env command)).

Definition default_maxBuffer : Z := 1024 * 1024.

Definition reply (channel : string) (p : payload) : M unit :=
  emit (Reply channel p).

(** *** Start-up: the store directories *)

Definition WORKBENCH_DIR_NAME : string := ".solana-workbench".
Definition WORKBENCH_DIR_PATH : Fs.path :=
  Fs.path_join (homedir env) WORKBENCH_DIR_NAME.
Definition KEYPAIR_DIR_PATH : Fs.path :=
  Fs.path_join WORKBENCH_DIR_PATH "keys".

(** The module-level statement
    [if (!fs.existsSync(WORKBENCH_DIR_PATH)) { mkdirSync(...); mkdirSync(...) }],
    as a function on the file system. *)
Definition ensure_dirs (fs0 : gmap Fs.path Fs.node) : result (gmap Fs.path Fs.node) :=
  if negb (Fs.existsSync fs0 WORKBENCH_DIR_PATH) then
    match Fs.mkdirSync fs0 WORKBENCH_DIR_PATH with
    | Err e => Err e
    | Ok fs1 => Fs.mkdirSync fs1 KEYPAIR_DIR_PATH
    end
  else Ok fs0.

Definition startup : M unit := write_fs ensure_dirs.

(** *** Cluster probe *)

Definition connectSOL : M SolState :=
  let ret0 := {| running := false; keyId := "" |} in
  await attempt <- try_ (call new_Connection "http://127.0.0.1:8899" in
                         getEpochInfo) in
  match attempt with
  | Err error =>
      call console_log "COULD NOT CONNECT" in
      ret ret0
  | Ok _ =>
      ret {| running := true; keyId := keyId ret0 |}
  end.

(** *** Keypair store *)

Definition fromSecretKey (data : list byte) : M Keypair :=
  match Keypair_fromSecretKey data with
  | Some kp => ret kp
  | None => throw BadSecretKey
  end.

Definition localKeypair (pubKey : string) : M Keypair :=
  let keyPath := Fs.path_join KEYPAIR_DIR_PATH pubKey in
  await data <- read_fs (fun fs0 => Fs.readFileSync fs0 keyPath) in
  fromSecretKey data.

(** The callback handed to [.filter]: an async function, so what [filter]
    receives for each path is a promise of [stat.isFile()]. *)
Definition isFile_async (keyPath : Fs.path) : M bool :=
  await stat <- read_fs (fun fs0 => Fs.stat fs0 keyPath) in
  ret (Fs.isFile stat).

Definition load_async (keyPath : Fs.path) : M Keypair :=
  await data <- read_fs (fun fs0 => Fs.readFileSync fs0 keyPath) in
  fromSecretKey data.

(** [filter] tests the truthiness of what its callback returns, here the
    promise itself, which nothing awaits; the callbacks of the second [map]
    read their file at once, one after the other. *)
Definition keypairs : M (list string) :=
  await keypairFiles <- read_fs (fun fs0 => Fs.readdir fs0 KEYPAIR_DIR_PATH) in
  let web3KeyPromises :=
    map load_async
      (List.filter (fun keyPath => ToBoolean_promise (isFile_async keyPath))
         (map (fun key => Fs.path_join KEYPAIR_DIR_PATH key) keypairFiles)) in
  await web3Keys <- Promise_all web3KeyPromises in
  let publicKeys := map (fun k => PublicKey_toString (publicKey k)) web3Keys in
  ret publicKeys.

(** [web3.Keypair.generate()] *)
Definition Keypair_generate : M Keypair :=
  await seed <- random_seed env in
  ret (Keypair_fromSeed seed).

Definition addKeypair : M (list string) :=
  await kp <- Keypair_generate in
  let kpPath := Fs.path_join KEYPAIR_DIR_PATH (PublicKey_toString (publicKey kp)) in
  call write_fs (fun fs0 => Fs.writeFileSync fs0 kpPath (secretKey kp)) in
  await allKeypairs <- keypairs in
  ret allKeypairs.

(** *** Funding *)

Definition LAMPORTS_PER_SOL : Z := 1000000000.

(** [sol] is the whole-unit amount of the request and the product is exact;
    the JavaScript product is this one as long as it stays within the
    integers that a double represents exactly. *)

Definition airdropTokens (pubKey : string) (sol : Z) : M unit :=
  call new_Connection "http://127.0.0.1:8899" in
  await to <- localKeypair pubKey in
  await airdropSignature <- requestAirdrop (publicKey to) (LAMPORTS_PER_SOL * sol) in
  confirmTransaction airdropSignature.

(** *** Validator supervisor *)

(** The template literal of [runValidator]: a backslash at the end of a line
    continues the line, the indentation of the next line stays. *)
Definition docker_run_command : string :=
  "docker run "
  +:+ "      --name solana-test-validator "
  +:+ "      -d "
  +:+ "      -p 8899:8899 "
  +:+ "      -p 8900:8900 "
  +:+ "       --ulimit nofile=1000000 "
  +:+ "      solanalabs/solana:v1.8.4".

(** [exec] with a callback: the process is started and the call returns.  The
    callback, which logs the launch error once the process has ended, runs
    after the caller has gone on and is not part of the call. *)
Definition runValidator : M unit := emit (Exec docker_run_command).

Definition docker_logs_command : string :=
  "docker logs --tail " +:+ pretty MAX_TAIL_LINES +:+ " solana-test-validator".

Definition validatorLogs (filter : string) : M string :=
  await out <- exec_promisified docker_logs_command maxBuffer in
  lift (render_logs (stderr out) filter).

(** *** The dispatcher: one handler per channel *)

Inductive request : Type :=
  | Init
  | RunValidator
  | ValidatorLogs (filter : string)
  | Keypairs
  | AddKeypair
  | Airdrop (pubKey : string) (solAmount : Z)
  | FetchAnchorIdl (programID : string).

Definition handle (r : request) : M unit :=
  match r with
  | Init =>
      await solState <- connectSOL in
      reply "init" (State solState)
  | RunValidator =>
      call runValidator in
      reply "run-validator" EmptyObject
  | ValidatorLogs filter =>
      await logs <- validatorLogs filter in
      reply "validator-logs" (Text logs)
  | Keypairs =>
      await pairs <- keypairs in
      reply "keypairs" (PublicKeys pairs)
  | AddKeypair =>
      call addKeypair in
      await pairs <- keypairs in
      reply "add-keypair" (PublicKeys pairs)
  | Airdrop pubKey solAmount =>
      call airdropTokens pubKey solAmount in
      reply "airdrop success" NoArgs
  | FetchAnchorIdl programID =>
      await out <- exec_promisified ("anchor idl fetch " +:+ programID)
                     default_maxBuffer in
      match JSON_parse (stdout out) with
      | Some idl => reply "fetch-anchor-idl" (Parsed idl)
      | None => throw SyntaxError
      end
  end.

(** The replies sent while going from trace [before] to trace [after]. *)
Definition replies (t : list event) : list event := List.filter is_reply t.
Definition network_calls (t : list event) : list event :=
  List.filter is_network_call t.

End Main.

(** ** Concrete instances, used to run the model

    [MiniRegExp] implements a fragment of the JavaScript pattern syntax
    (literal characters, [.], escaped punctuation, groups, [|], [*], [+], [?],
    lazy quantifiers) by Brzozowski derivatives; patterns outside the fragment
    are rejected.  [ToyWeb3] keeps the shape of the library's keypairs (a
    64-byte secret key whose second half is the public key) with a stand-in
    for the curve arithmetic. *)

Module MiniRegExp.

Inductive re : Type :=
  | Never
  | Eps
  | Chr (c : ascii)
  | Dot                     (* [.]: any character except a line terminator *)
  | AnyChr
  | Seq (a b : re)
  | Alt (a b : re)
  | Star (a : re).

Definition accepts (r : re) (c : ascii) : bool :=
  match r with
  | Chr c' => Ascii.eqb c' c
  | Dot => negb (Ascii.eqb c "010"%char || Ascii.eqb c "013"%char)
  | AnyChr => true
  | _ => false
  end.

Fixpoint nullable (r : re) : bool :=
  match r with
  | Never | Chr _ | Dot | AnyChr => false
  | Eps | Star _ => true
  | Seq a b => nullable a && nullable b
  | Alt a b => nullable a || nullable b
  end.

Definition seq (a b : re) : re :=
  match a, b with
  | Never, _ | _, Never => Never
  | Eps, _ => b
  | _, _ => Seq a b
  end.

Definition alt (a b : re) : re :=
  match a, b with
  | Never, _ => b
  | _, Never => a
  | _, _ => Alt a b
  end.

Fixpoint deriv (c : ascii) (r : re) : re :=
  match r with
  | Never | Eps => Never
  | Chr _ | Dot | AnyChr => if accepts r c then Eps else Never
  | Seq a b =>
      if nullable a then alt (seq (deriv c a) b) (deriv c b)
      else seq (deriv c a) b
  | Alt a b => alt (deriv c a) (deriv c b)
  | Star a => seq (deriv c a) (Star a)
  end.

(** Does [r] match the whole of [s]? *)
Fixpoint matches (r : re) (s : string) : bool :=
  match s with
  | EmptyString => nullable r
  | String c s' => matches (deriv c r) s'
  end.

(** Does [r] match somewhere in [s]? *)
Definition search (r : re) (s : string) : bool :=
  matches (Seq (Star AnyChr) (Seq r (Star AnyChr))) s.

Definition is_alnum (c : ascii) : bool :=
  let n := N_of_ascii c in
  ((48 <=? n) && (n <=? 57) || (65 <=? n) && (n <=? 90)
   || (97 <=? n) && (n <=? 122))%N.

Definition is_syntax_character (c : ascii) : bool :=
  existsb (Ascii.eqb c) (list_ascii_of_string "^$\.*+?()[]{}|").

(** A quantifier after an atom, with its optional lazy mark. *)
Definition parse_quantifier (a : re) (s : list ascii) : re * list ascii :=
  let lazy (rest : list ascii) :=
    match rest with
    | "?"%char :: rest' => rest'
    | _ => rest
    end in
  match s with
  | "*"%char :: rest => (Star a, lazy rest)
  | "+"%char :: rest => (Seq a (Star a), lazy rest)
  | "?"%char :: rest => (Alt a Eps, lazy rest)
  | _ => (a, s)
  end.

Fixpoint parse_disjunction (fuel : nat) (s : list ascii) : option (re * list ascii) :=
  match fuel with
  | O => None
  | S fuel' =>
      match parse_alternative fuel' s with
      | Some (r, "|"%char :: rest) =>
          match parse_disjunction fuel' rest with
          | Some (r', rest') => Some (Alt r r', rest')
          | None => None
          end
      | other => other
      end
  end
with parse_alternative (fuel : nat) (s : list ascii) : option (re * list ascii) :=
  match fuel with
  | O => None
  | S fuel' =>
      match s with
      | [] => Some (Eps, [])
      | "|"%char :: _ | ")"%char :: _ => Some (Eps, s)
      | _ =>
          match parse_atom fuel' s with
          | None => None
          | Some (a, rest) =>
              match parse_quantifier a rest with
              | (t, rest') =>
                  match parse_alternative fuel' rest' with
                  | Some (r, rest'') => Some (Seq t r, rest'')
                  | None => None
                  end
              end
          end
      end
  end
with parse_atom (fuel : nat) (s : list ascii) : option (re * list ascii) :=
  match fuel with
  | O => None
  | S fuel' =>
      match s with
      | [] => None
      | "."%char :: rest => Some (Dot, rest)
      | "\"%char :: c :: rest => if is_alnum c then None else Some (Chr c, rest)
      | "("%char :: rest =>
          match parse_disjunction fuel' rest with
          | Some (r, ")"%char :: rest') => Some (r, rest')
          | _ => None
          end
      | c :: rest => if is_syntax_character c then None else Some (Chr c, rest)
      end
  end.

Definition compile (src : string) : option re :=
  let s := list_ascii_of_string src in
  match parse_disjunction (4 * length s + 4) s with
  | Some (r, []) => Some r
  | _ => None
  end.

#[export] Instance engine : Js.RegExpEngine :=
  {| Js.regexp := re; Js.RegExp_new := compile; Js.RegExp_exec := search |}.

End MiniRegExp.

Module ToyWeb3.

(** Stand-in for deriving the public key from the seed. *)
Definition derive (seed : list byte) : list byte := rev seed.

Definition fromSeed (seed : list byte) : Keypair :=
  {| publicKey := derive seed; secretKey := seed ++ derive seed |}.

Definition fromSecretKey (d : list byte) : option Keypair :=
  if decide (length d = 64%nat /\ drop 32 d = derive (take 32 d))
  then Some {| publicKey := drop 32 d; secretKey := d |}
  else None.

Definition hex_digit (n : N) : ascii :=
  ascii_of_N (if (n <? 10)%N then 48 + n else 87 + n).

Definition hex (bs : list byte) : string :=
  string_of_list_ascii
    (flat_map (fun b => let n := Byte.to_N b in
                        [hex_digit (n / 16); hex_digit (n mod 16)]) bs).

#[export] Instance lib : Web3 :=
  {| Keypair_fromSeed := fromSeed;
     Keypair_fromSecretKey := fromSecretKey;
     PublicKey_toString := hex |}.

(** [JSON.parse] restricted to telling an object literal from anything
    else. *)
#[export] Instance toy_json : Json :=
  {| json := string;
     JSON_parse := fun s => if Js.is_prefix "{" s then Some s else None |}.

End ToyWeb3.

(** ** Vocabulary of the properties *)

Definition no_newline (s : string) : Prop :=
  ~ In newline (list_ascii_of_string s).

(** The lines of a returned text: the empty text has none. *)
Definition text_lines (text : string) : list string :=
  match text with
  | EmptyString => []
  | _ => Js.split newline text
  end.

Section Vocabulary.
Context `{Web3} `{Js.RegExpEngine} `{Json}.

(** The world after one more event. *)
Definition after (e : event) (w : World) : World :=
  {| fs := fs w; draws := draws w; trace := trace w ++ [e] |}.

(** What the [docker logs] subprocess produces. *)
Definition logs_output (env : Env) : proc_output :=
  child_process env docker_logs_command.

(** A computation that may extend the trace but sends no reply. *)
Definition quiet {A} (m : M A) : Prop :=
  forall w, exists new,
    trace (snd (m w)) = trace w ++ new /\ replies new = [].

(** A computation that sends one reply when it succeeds and none when it
    fails. *)
Definition answers_iff_ok {A} (m : M A) : Prop :=
  forall w, exists new,
    trace (snd (m w)) = trace w ++ new
    /\ length (replies new) = if is_Ok (fst (m w)) then 1%nat else 0%nat.

(** The dispatcher's contract as the specification words it: one reply per
    request, whatever happens. *)
Definition replies_exactly_once (env : Env) (req : request) (w : World) : Prop :=
  exists new,
    trace (snd (handle env req w)) = trace w ++ new
    /\ length (replies new) = 1%nat.

(** A computation that leaves the world as it found it. *)
Definition pure_read {A} (m : M A) : Prop := forall w, snd (m w) = w.

(** The keypair that [Keypair.generate()] yields in world [w], and the
    public identifier of a keypair. *)
Definition generated (env : Env) (w : World) : Keypair :=
  Keypair_fromSeed (randomBytes env (draws w)).

Definition identifier (kp : Keypair) : string :=
  PublicKey_toString (publicKey kp).

(** The store directories are both there. *)
Definition store_initialized (env : Env) (fs0 : gmap Fs.path Fs.node) : Prop :=
  Fs.node_at fs0 (WORKBENCH_DIR_PATH env) = Some Fs.Dir
  /\ Fs.node_at fs0 (KEYPAIR_DIR_PATH env) = Some Fs.Dir.

End Vocabulary.

(** ** Sample worlds *)

Module Demo.
Import MiniRegExp ToyWeb3.

Definition seed (n : nat) : list byte :=
  repeat x01 31 ++ [default x00 (Byte.of_nat (n mod 256))].

(** A validator log with 5 lines that contain ERROR among 50 that do not,
    oldest first. *)
Definition error_lines : list string :=
  ["ERROR 1"; "ERROR 2"; "ERROR 3"; "ERROR 4"; "ERROR 5"].

Definition sample_log : string :=
  Js.join nl (flat_map (fun e => repeat "INFO slot advanced" 10 ++ [e]) error_lines).

(** An environment where [docker logs] writes [out] on standard output and
    [err] on standard error, every other command prints [{}], and the RPC
    node answers every call. *)
Definition env_with (out err : string) : Env :=
  {| homedir := ["home"; "dev"];
     child_process := fun command =>
       if String.eqb command docker_logs_command
       then {| exit_code := 0; stdout := out; stderr := err |}
       else {| exit_code := 0; stdout := "{}"; stderr := "" |};
     randomBytes := seed;
     getEpochInfo_reply := Ok tt;
     requestAirdrop_reply := fun _ _ => Ok "signature";
     confirmTransaction_reply := fun _ => Ok tt |}.

Definition env : Env := env_with "" sample_log.

Definition home : Fs.path := ["home"; "dev"].
Definition root : Fs.path := ["home"; "dev"; ".solana-workbench"].
Definition keys : Fs.path := ["home"; "dev"; ".solana-workbench"; "keys"].

(** Only the home directory. *)
Definition fs_fresh : gmap Fs.path Fs.node :=
  <[ home := Fs.Dir ]> (<[ ["home"] := Fs.Dir ]> ∅).

(** The root directory is there, its [keys] subdirectory is not. *)
Definition fs_root_only : gmap Fs.path Fs.node :=
  <[ root := Fs.Dir ]> fs_fresh.

(** Both store directories, no key yet. *)
Definition fs_ready : gmap Fs.path Fs.node :=
  <[ keys := Fs.Dir ]> fs_root_only.

Definition stored : Keypair := fromSeed (seed 7).
Definition stored_id : string := hex (publicKey stored).

(** One key file in the store. *)
Definition fs_one_key : gmap Fs.path Fs.node :=
  <[ keys ++ [stored_id] := Fs.File (secretKey stored) ]> fs_ready.

(** One key file and one subdirectory in the store. *)
Definition fs_key_and_subdir : gmap Fs.path Fs.node :=
  <[ keys ++ ["backup"] := Fs.Dir ]> fs_one_key.

Definition world (fs0 : gmap Fs.path Fs.node) : World :=
  {| fs := fs0; draws := 0; trace := [] |}.

End Demo.

(** ** Vocabulary of the further properties *)

Section Footprints.
Context `{Web3} `{Js.RegExpEngine} `{Json}.

Definition is_exec (e : event) : bool :=
  match e with Exec _ => true | _ => false end.

(** A computation that adds no event of the kind [P] to the trace. *)
Definition avoids {A} (P : event -> bool) (m : M A) : Prop :=
  forall w, exists new,
    trace (snd (m w)) = trace w ++ new /\ List.filter P new = [].

(** A computation that leaves the file system as it found it. *)
Definition keeps_fs {A} (m : M A) : Prop :=
  forall w, fs (snd (m w)) = fs w.

(** The channel on which the handler of a request is registered. *)
Definition request_channel (req : request) : string :=
  match req with
  | Init => "init"
  | RunValidator => "run-validator"
  | ValidatorLogs _ => "validator-logs"
  | Keypairs => "keypairs"
  | AddKeypair => "add-keypair"
  | Airdrop _ _ => "airdrop"
  | FetchAnchorIdl _ => "fetch-anchor-idl"
  end.

(** The path of the key file of an identifier. *)
Definition key_path (env : Env) (pubKey : string) : Fs.path :=
  Fs.path_join (KEYPAIR_DIR_PATH env) pubKey.

(** A computation that, when it succeeds, has sent exactly one reply, on
    channel [c] and with a payload satisfying [Q]. *)
Definition replies_with {A} (c : string) (Q : payload -> Prop) (m : M A) : Prop :=
  forall w, is_Ok (fst (m w)) = true ->
    exists new p,
      trace (snd (m w)) = trace w ++ new
      /\ replies new = [Reply c p] /\ Q p.

(** The channel on which the handler of a request answers. *)
Definition answer_channel (req : request) : string :=
  match req with
  | Airdrop _ _ => "airdrop success"
  | _ => request_channel req
  end.

(** The lines of the validator's standard error on which [r] matches. *)
Definition matched (r : Js.regexp) (env : Env) : list string :=
  List.filter (Js.RegExp_exec r) (Js.split newline (stderr (logs_output env))).

(** The keys directory has no entry. *)
Definition keys_empty (env : Env) (fsys : gmap Fs.path Fs.node) : Prop :=
  forall name, fsys !! key_path env name = None.

End Footprints.

(** ** More sample worlds *)

Module Demo2.
Import MiniRegExp ToyWeb3.

(** A key file whose bytes are not a secret key. *)
Definition fs_broken_key : gmap Fs.path Fs.node :=
  <[ Demo.keys ++ ["broken"] := Fs.File [x00; x01; x02] ]> Demo.fs_ready.

(** A valid key file stored under a name that is not its identifier. *)
Definition fs_alias : gmap Fs.path Fs.node :=
  <[ Demo.keys ++ ["alias"] := Fs.File (secretKey Demo.stored) ]> Demo.fs_ready.

(** A validator log of 40 lines that all contain ERROR. *)
Definition long_log : string :=
  Js.join nl (map (fun n : nat => "ERROR " +:+ pretty n) (List.seq 1%nat 40%nat)).

Definition env_long : Env := Demo.env_with "" long_log.


End Demo2.

(** ** Vocabulary of the dispatcher and funding properties *)


(** The whole amounts whose product with [LAMPORTS_PER_SOL] is computed
    exactly by the multiplication of JavaScript numbers: the product stays
    within the integers that a double represents exactly. *)
Definition exact_lamports (sol : Z) : Prop :=
  Z.abs (LAMPORTS_PER_SOL * sol) <= 9007199254740992.

Section ComponentOutcomes.
Context `{Web3} `{Js.RegExpEngine} `{Json}.

(** Do the components that the handler of [req] calls, one after the other,
    all succeed when the request arrives in world [w]? *)
Definition components_succeed (env : Env) (req : request) (w : World) : bool :=
  match req with
  | Init => is_Ok (fst (connectSOL env w))
  | RunValidator => is_Ok (fst (runValidator w))
  | ValidatorLogs filter => is_Ok (fst (validatorLogs env filter w))
  | Keypairs => is_Ok (fst (keypairs env w))
  | AddKeypair =>
      is_Ok (fst (addKeypair env w))
      && is_Ok (fst (keypairs env (snd (addKeypair env w))))
  | Airdrop pubKey solAmount => is_Ok (fst (airdropTokens env pubKey solAmount w))
  | FetchAnchorIdl programID =>
      match fst (exec_promisified env ("anchor idl fetch " +:+ programID)
                   default_maxBuffer w) with
      | Ok out => bool_decide (is_Some (JSON_parse (stdout out)))
      | Err _ => false
      end
  end.

End ComponentOutcomes.

(** ** Patterns whose only special character is the dot

    For these patterns and ASCII subjects the meaning of a JavaScript regular
    expression is elementary: every character stands for itself, except the
    dot, which stands for any character but a line terminator. *)

Definition is_line_terminator (c : ascii) : bool :=
  Ascii.eqb c "010"%char || Ascii.eqb c "013"%char.

Definition syntax_characters : string := "^$\.*+?()[]{}|".

(** A printable ASCII character that is not a syntax character. *)
Definition is_plain_character (c : ascii) : bool :=
  ((32 <=? N_of_ascii c)%N && (N_of_ascii c <=? 126)%N)
  && negb (existsb (Ascii.eqb c) (list_ascii_of_string syntax_characters)).

Definition pattern_character (c : ascii) : bool :=
  Ascii.eqb c "."%char || is_plain_character c.

Definition dot_pattern (p : string) : bool :=
  forallb pattern_character (list_ascii_of_string p).

Definition wild_char (c d : ascii) : bool :=
  if Ascii.eqb c "."%char then negb (is_line_terminator d) else Ascii.eqb c d.

(** Does [p] match at the start of [s]? *)
Fixpoint wild_prefix (p s : string) : bool :=
  match p, s with
  | EmptyString, _ => true
  | String c p', String d s' => wild_char c d && wild_prefix p' s'
  | String _ _, EmptyString => false
  end.

(** Does [p] match somewhere in [s]? *)
Fixpoint wild_includes (p s : string) : bool :=
  wild_prefix p s ||
  match s with
  | EmptyString => false
  | String _ s' => wild_includes p s'
  end.

Definition is_ascii (s : string) : bool :=
  forallb (fun c => (N_of_ascii c <? 128)%N) (list_ascii_of_string s).

(** What the program relies on from the regular-expression engine: a dot
    pattern compiles, and on an ASCII subject it matches exactly where the
    pattern, read with the dot as a wildcard, occurs. *)
Class RegExpLaws `{Js.RegExpEngine} : Prop := {
  dot_patterns :
    forall p, dot_pattern p = true ->
      exists r, Js.RegExp_new p = Some r
                /\ forall s, is_ascii s = true ->
                     Js.RegExp_exec r s = wild_includes p s
}.

(** ** The language of an expression of the stand-in engine *)

Module MiniRegExpLang.
Import MiniRegExp.

Inductive lang : re -> list ascii -> Prop :=
  | lang_Eps : lang Eps []
  | lang_Chr c : lang (Chr c) [c]
  | lang_Dot c : accepts Dot c = true -> lang Dot [c]
  | lang_AnyChr c : lang AnyChr [c]
  | lang_Seq a b s1 s2 : lang a s1 -> lang b s2 -> lang (Seq a b) (s1 ++ s2)
  | lang_Alt_l a b s : lang a s -> lang (Alt a b) s
  | lang_Alt_r a b s : lang b s -> lang (Alt a b) s
  | lang_Star_nil a : lang (Star a) []
  | lang_Star_app a s1 s2 : lang a s1 -> lang (Star a) s2 -> lang (Star a) (s1 ++ s2).

(** The expression that a dot pattern stands for. *)
Definition atom (c : ascii) : re :=
  if Ascii.eqb c "."%char then Dot else Chr c.

Fixpoint chain (p : list ascii) : re :=
  match p with
  | [] => Eps
  | c :: p' => Seq (atom c) (chain p')
  end.

Fixpoint wild_equal (p s : list ascii) : bool :=
  match p, s with
  | [], [] => true
  | c :: p', d :: s' => wild_char c d && wild_equal p' s'
  | _, _ => false
  end.

End MiniRegExpLang.

Module Demo3.

(** A log in which two lines match the pattern [a.c] without containing
    it. *)
Definition dotted_log : string := Js.join nl ["abc"; "abc"; "a.c"; "ab"].

Definition env_dotted : Env := Demo.env_with "" dotted_log.

End Demo3.

(** * Properties *)

(** ** Text processing *)

Lemma split_not_nil sep s : Js.split sep s <> [].
Proof.
  destruct s as [|c s]; simpl; [discriminate|].
  destruct (Ascii.eqb c sep); [discriminate|].
  destruct (Js.split sep s); discriminate.
Qed.

Lemma split_no_sep s : Forall no_newline (Js.split newline s).
Proof.
  induction s as [|c s IH]; simpl.
  - constructor; [intros []|constructor].
  - destruct (Ascii.eqb_spec c newline) as [->|Hc].
    + constructor; [intros []|exact IH].
    + destruct (Js.split newline s) as [|x xs]; simpl.
      * constructor; [|constructor].
        intros [E|[]]. congruence.
      * inversion IH as [|? ? Hx Hxs]; subst. constructor; [|exact Hxs].
        intros [E|E]; [congruence|contradiction].
Qed.

Lemma split_one_line x : no_newline x -> Js.split newline x = [x].
Proof.
  induction x as [|c x IH]; intros Hx; simpl; [reflexivity|].
  destruct (Ascii.eqb_spec c newline) as [->|Hc].
  - exfalso. apply Hx. now left.
  - rewrite IH; [reflexivity|]. intros Hin. apply Hx. now right.
Qed.

Lemma split_app_line x rest :
  no_newline x ->
  Js.split newline (x +:+ String newline rest) = x :: Js.split newline rest.
Proof.
  induction x as [|c x IH]; intros Hx; simpl.
  - reflexivity.
  - destruct (Ascii.eqb_spec c newline) as [->|Hc].
    + exfalso. apply Hx. now left.
    + rewrite IH; [reflexivity|].
      intros Hin. apply Hx. now right.
Qed.

(** Joining lines and splitting the text again gives the lines back. *)
Lemma split_join ls :
  Forall no_newline ls -> ls <> [] ->
  Js.split newline (Js.join nl ls) = ls.
Proof.
  induction ls as [|x xs IH]; intros Hall Hne; [congruence|].
  inversion Hall as [|? ? Hx Hxs]; subst.
  destruct xs as [|y ys].
  - simpl. now apply split_one_line.
  - change (Js.join nl (x :: y :: ys))
      with (x +:+ String newline (Js.join nl (y :: ys))).
    rewrite split_app_line by assumption.
    rewrite IH; [reflexivity|assumption|discriminate].
Qed.

Lemma join_empty_inv ls : Js.join nl ls = EmptyString -> ls = [] \/ ls = [EmptyString].
Proof.
  destruct ls as [|x [|y ys]]; simpl; intros E; auto.
  - right. now subst.
  - destruct x; discriminate.
Qed.

(** The lines of a joined text are among the lines that were joined. *)
Lemma text_lines_join ls :
  Forall no_newline ls ->
  text_lines (Js.join nl ls) = ls \/ text_lines (Js.join nl ls) = [].
Proof.
  intros Hall. unfold text_lines.
  destruct (Js.join nl ls) eqn:E.
  - now right.
  - left. rewrite <- E. apply split_join; [assumption|].
    intros ->. discriminate.
Qed.

Lemma js_filter_total {A} (cb : A -> result bool) (f : A -> bool) l :
  (forall x, cb x = Ok (f x)) -> Js.filter cb l = Ok (List.filter f l).
Proof.
  intros Hcb. induction l as [|x xs IH]; simpl; [reflexivity|].
  rewrite Hcb, IH. now destruct (f x).
Qed.

Lemma js_filter_throws {A} (cb : A -> result bool) e l :
  (forall x, cb x = Err e) -> l <> [] -> Js.filter cb l = Err e.
Proof.
  intros Hcb Hne. destruct l as [|x xs]; [congruence|]. simpl. now rewrite Hcb.
Qed.

Lemma slice_is_drop {A} (start : Z) (l : list A) :
  0 <= start -> Js.slice start l = drop (Z.to_nat start) l.
Proof.
  intros Hs. unfold Js.slice.
  destruct (Z.ltb_spec start 0) as [?|_]; [lia|].
  destruct (Z.le_gt_cases start (Z.of_nat (length l))) as [Hle|Hgt].
  - now rewrite Z.min_l.
  - rewrite Z.min_r by lia. rewrite Nat2Z.id.
    rewrite !drop_ge; [reflexivity|lia|lia].
Qed.

Section LogFacts.
Context `{Js.RegExpEngine}.

Lemma display_window_drop lines :
  display_window lines
  = drop (Z.to_nat (Z.max (Z.of_nat (length lines) - 30) 1)) lines.
Proof.
  unfold display_window, Js.Math_max, MAX_DISPLAY_LINES.
  apply slice_is_drop. lia.
Qed.

Lemma display_window_length lines : (length (display_window lines) <= 30)%nat.
Proof. rewrite display_window_drop, length_drop. lia. Qed.

Lemma display_window_Forall (P : string -> Prop) lines :
  Forall P lines -> Forall P (display_window lines).
Proof. rewrite display_window_drop. apply Forall_drop. Qed.

(** When at most 31 lines match, the window starts at index 1: the oldest
    matching line is left out. *)
Lemma display_window_short lines :
  (length lines <= 31)%nat -> display_window lines = tail lines.
Proof.
  intros Hlen. rewrite display_window_drop.
  replace (Z.to_nat (Z.max (Z.of_nat (length lines) - 30) 1)) with 1%nat by lia.
  now destruct lines.
Qed.

Lemma display_window_long lines :
  (31 <= length lines)%nat ->
  display_window lines = drop (length lines - 30) lines.
Proof.
  intros Hlen. rewrite display_window_drop. f_equal. lia.
Qed.

Lemma matching_lines_compiled stderr filter r :
  Js.RegExp_new filter = Some r ->
  matching_lines stderr filter
  = Ok (List.filter (Js.RegExp_exec r) (Js.split newline stderr)).
Proof.
  intros Hr. unfold matching_lines. apply js_filter_total.
  intros s. unfold Js.String_match. now rewrite Hr.
Qed.

Lemma matching_lines_invalid stderr filter :
  Js.RegExp_new filter = None ->
  matching_lines stderr filter = Err SyntaxError.
Proof.
  intros Hr. unfold matching_lines. apply js_filter_throws.
  - intros s. unfold Js.String_match. now rewrite Hr.
  - apply split_not_nil.
Qed.

Lemma matching_lines_inv stderr filter lines :
  matching_lines stderr filter = Ok lines ->
  exists r, Js.RegExp_new filter = Some r
            /\ lines = List.filter (Js.RegExp_exec r) (Js.split newline stderr).
Proof.
  intros Hm. destruct (Js.RegExp_new filter) as [r|] eqn:Hr.
  - exists r. split; [reflexivity|].
    rewrite (matching_lines_compiled _ _ r Hr) in Hm. congruence.
  - rewrite matching_lines_invalid in Hm by assumption. discriminate.
Qed.

Lemma matching_lines_match stderr filter lines :
  matching_lines stderr filter = Ok lines ->
  Forall (fun s => Js.String_match s filter = Ok true) lines
  /\ Forall no_newline lines.
Proof.
  intros Hm. destruct (matching_lines_inv _ _ _ Hm) as (r & Hr & ->). split.
  - apply List.Forall_forall. intros s Hs. apply List.filter_In in Hs as [_ Hs].
    unfold Js.String_match. now rewrite Hr, Hs.
  - apply List.Forall_forall. intros s Hs. apply List.filter_In in Hs as [Hs _].
    pose proof (split_no_sep stderr) as Hall.
    rewrite List.Forall_forall in Hall. now apply Hall.
Qed.

Lemma displayed_lines_spec stderr filter shown :
  displayed_lines stderr filter = Ok shown ->
  (length shown <= 30)%nat
  /\ Forall (fun s => Js.String_match s filter = Ok true) shown
  /\ Forall no_newline shown.
Proof.
  unfold displayed_lines. destruct (matching_lines stderr filter) as [lines|] eqn:Hm;
    [|discriminate].
  intros [= <-]. destruct (matching_lines_match _ _ _ Hm) as [Hall Hnl].
  split; [apply display_window_length|].
  split; now apply display_window_Forall.
Qed.

End LogFacts.

(** ** Validator logs *)

Section ValidatorLogs.
Context `{Js.RegExpEngine} `{Json}.

Lemma validatorLogs_run env filter w :
  validatorLogs env filter w
  = match exec_outcome maxBuffer (child_process env docker_logs_command) with
    | Ok out => (render_logs (stderr out) filter, after (Exec docker_logs_command) w)
    | Err e => (Err e, after (Exec docker_logs_command) w)
    end.
Proof.
  unfold validatorLogs, exec_promisified, bind, emit, lift, after.
  now destruct (exec_outcome _ _).
Qed.

Lemma exec_outcome_Ok limit out out' :
  exec_outcome limit out = Ok out' -> out' = out.
Proof.
  unfold exec_outcome. repeat case_match; congruence.
Qed.

Lemma validatorLogs_Ok env filter w text w' :
  validatorLogs env filter w = (Ok text, w') ->
  exists shown,
    displayed_lines (stderr (logs_output env)) filter = Ok shown
    /\ text = Js.join nl shown.
Proof.
  rewrite validatorLogs_run.
  destruct (exec_outcome _ _) as [out|] eqn:Hout; [|discriminate].
  apply exec_outcome_Ok in Hout as ->. unfold render_logs.
  destruct (displayed_lines _ _) as [shown|]; [|discriminate].
  intros [= <- _]. now exists shown.
Qed.

(** C3. Whatever the log stream and the filter, the text that
    [validatorLogs] returns has at most 30 lines and each of them matches
    the filter. *)
Theorem validatorLogs_at_most_30_matching_lines env filter w text w' :
  validatorLogs env filter w = (Ok text, w') ->
  (length (Js.split newline text) <= 30)%nat
  /\ (length (text_lines text) <= 30)%nat
  /\ Forall (fun s => Js.String_match s filter = Ok true) (text_lines text).
Proof.
  intros Hrun. destruct (validatorLogs_Ok _ _ _ _ _ Hrun) as (shown & Hshown & ->).
  destruct (displayed_lines_spec _ _ _ Hshown) as (Hlen & Hall & Hnl).
  assert (Hsplit : (length (Js.split newline (Js.join nl shown)) <= 30)%nat).
  { destruct shown as [|x xs].
    - simpl. lia.
    - rewrite split_join; [exact Hlen|exact Hnl|discriminate]. }
  split; [exact Hsplit|].
  destruct (text_lines_join shown Hnl) as [-> | ->].
  - now split.
  - split; [simpl; lia|constructor].
Qed.

(** C9. Only the standard-error stream is read: two runs of the log
    subprocess that write the same standard error return the same text
    whatever they write on standard output, and when the exit codes agree
    and both standard outputs fit the buffer the whole outcome is the
    same. *)
Theorem validatorLogs_ignores_stdout env1 env2 filter w :
  stderr (logs_output env1) = stderr (logs_output env2) ->
  (forall text1 text2 w1 w2,
      validatorLogs env1 filter w = (Ok text1, w1) ->
      validatorLogs env2 filter w = (Ok text2, w2) ->
      text1 = text2)
  /\ (exit_code (logs_output env1) = exit_code (logs_output env2) ->
      Z.of_nat (String.length (stdout (logs_output env1))) <= maxBuffer ->
      Z.of_nat (String.length (stdout (logs_output env2))) <= maxBuffer ->
      validatorLogs env1 filter w = validatorLogs env2 filter w).
Proof.
  unfold logs_output.
  set (out1 := child_process env1 docker_logs_command).
  set (out2 := child_process env2 docker_logs_command).
  intros Herr. split.
  - intros text1 text2 w1 w2 H1 H2.
    apply validatorLogs_Ok in H1 as (s1 & Hs1 & ->).
    apply validatorLogs_Ok in H2 as (s2 & Hs2 & ->).
    unfold logs_output in Hs1, Hs2. fold out1 in Hs1. fold out2 in Hs2.
    rewrite Herr in Hs1. congruence.
  - intros Hexit Hfit1 Hfit2. rewrite !validatorLogs_run.
    fold out1 out2. unfold exec_outcome. rewrite <- Hexit, <- Herr.
    destruct (negb (exit_code out1 =? 0)); [reflexivity|].
    destruct (Z.ltb_spec maxBuffer (Z.of_nat (String.length (stdout out1))));
      [lia|].
    destruct (Z.ltb_spec maxBuffer (Z.of_nat (String.length (stdout out2))));
      [lia|].
    simpl. rewrite Herr.
    destruct (maxBuffer <? Z.of_nat (String.length (stderr out2))); [reflexivity|].
    now rewrite Herr.
Qed.

End ValidatorLogs.

(** ** The monad and the trace *)

Section Effects.
Context `{Web3} `{Js.RegExpEngine} `{Json}.

Lemma replies_app (t1 t2 : list event) : replies (t1 ++ t2) = replies t1 ++ replies t2.
Proof. apply List.filter_app. Qed.

Lemma network_calls_app (t1 t2 : list event) :
  network_calls (t1 ++ t2) = network_calls t1 ++ network_calls t2.
Proof. apply List.filter_app. Qed.

Lemma quiet_ret {A} (a : A) : quiet (ret a).
Proof. intros w. exists []. simpl. now rewrite app_nil_r. Qed.

Lemma quiet_throw {A} e : quiet (@throw _ A e).
Proof. intros w. exists []. simpl. now rewrite app_nil_r. Qed.

Lemma quiet_lift {A} (r : result A) : quiet (lift r).
Proof. intros w. exists []. simpl. now rewrite app_nil_r. Qed.

Lemma quiet_read_fs {A} (op : gmap Fs.path Fs.node -> result A) : quiet (read_fs op).
Proof. intros w. exists []. simpl. now rewrite app_nil_r. Qed.

Lemma quiet_write_fs op : quiet (write_fs op).
Proof.
  intros w. exists []. unfold write_fs. rewrite app_nil_r.
  now destruct (op (fs w)).
Qed.

Lemma quiet_random_seed env : quiet (random_seed env).
Proof. intros w. exists []. simpl. now rewrite app_nil_r. Qed.

Lemma quiet_emit e : is_reply e = false -> quiet (emit e).
Proof. intros He w. exists [e]. simpl. now rewrite He. Qed.

Lemma quiet_bind {A B} (m : M A) (k : A -> M B) :
  quiet m -> (forall a, quiet (k a)) -> quiet (bind m k).
Proof.
  intros Hm Hk w. unfold bind. destruct (Hm w) as (n1 & Ht1 & Hr1).
  destruct (m w) as [[a|e] w1]; simpl in *.
  - destruct (Hk a w1) as (n2 & Ht2 & Hr2). exists (n1 ++ n2).
    rewrite Ht2, Ht1, app_assoc, replies_app, Hr1, Hr2. now split.
  - now exists n1.
Qed.

Lemma quiet_try {A} (m : M A) : quiet m -> quiet (try_ m).
Proof.
  intros Hm w. unfold try_. destruct (Hm w) as (n1 & Ht1 & Hr1).
  destruct (m w) as [r w1]. now exists n1.
Qed.

Lemma quiet_Promise_all {A} (ps : list (M A)) :
  Forall quiet ps -> quiet (Promise_all ps).
Proof.
  induction 1 as [|p ps Hp _ IH]; intros w; simpl.
  - exists []. now rewrite app_nil_r.
  - destruct (Hp w) as (n1 & Ht1 & Hr1). destruct (p w) as [r w1]. simpl in *.
    destruct (IH w1) as (n2 & Ht2 & Hr2).
    destruct (Promise_all ps w1) as [rs w2]. simpl in *.
    exists (n1 ++ n2). rewrite Ht2, Ht1, app_assoc, replies_app, Hr1, Hr2.
    now split.
Qed.

Lemma answers_reply channel p : answers_iff_ok (reply channel p).
Proof. intros w. now exists [Reply channel p]. Qed.

Lemma answers_throw {A} e : answers_iff_ok (@throw _ A e).
Proof. intros w. exists []. simpl. now rewrite app_nil_r. Qed.

Lemma answers_bind {A B} (m : M A) (k : A -> M B) :
  quiet m -> (forall a, answers_iff_ok (k a)) -> answers_iff_ok (bind m k).
Proof.
  intros Hm Hk w. unfold bind. destruct (Hm w) as (n1 & Ht1 & Hr1).
  destruct (m w) as [[a|e] w1]; simpl in *.
  - destruct (Hk a w1) as (n2 & Ht2 & Hr2). exists (n1 ++ n2).
    rewrite Ht2, Ht1, app_assoc, replies_app, Hr1. now split.
  - exists n1. now rewrite Hr1.
Qed.

End Effects.

Create HintDb effects.

#[local] Hint Resolve quiet_ret quiet_throw quiet_lift quiet_read_fs quiet_write_fs
  quiet_random_seed quiet_try answers_reply answers_throw : effects.

Ltac quiet_step :=
  first
    [ apply quiet_bind; [|intros ?]
    | apply quiet_emit; reflexivity
    | solve [auto with effects] ].

(** ** The components send no reply themselves *)

Section Components.
Context `{Web3} `{Js.RegExpEngine} `{Json}.
Variable env : Env.

Lemma quiet_connectSOL : quiet (connectSOL env).
Proof.
  unfold connectSOL. apply quiet_bind.
  - apply quiet_try. unfold new_Connection, getEpochInfo. repeat quiet_step.
  - intros [?|?]; unfold console_log; repeat quiet_step.
Qed.

Lemma quiet_fromSecretKey data : quiet (fromSecretKey data).
Proof. unfold fromSecretKey. destruct (Keypair_fromSecretKey data); auto with effects. Qed.

Lemma quiet_load_async keyPath : quiet (load_async keyPath).
Proof. unfold load_async. quiet_step; [quiet_step|apply quiet_fromSecretKey]. Qed.

Lemma quiet_localKeypair pubKey : quiet (localKeypair env pubKey).
Proof. unfold localKeypair. quiet_step; [quiet_step|apply quiet_fromSecretKey]. Qed.

Lemma quiet_keypairs : quiet (keypairs env).
Proof.
  unfold keypairs. quiet_step; [quiet_step|].
  quiet_step; [|quiet_step].
  apply quiet_Promise_all, List.Forall_forall.
  intros p Hp. apply List.in_map_iff in Hp as (keyPath & <- & _).
  apply quiet_load_async.
Qed.

Lemma quiet_addKeypair : quiet (addKeypair env).
Proof.
  unfold addKeypair, Keypair_generate.
  apply quiet_bind; [repeat quiet_step|]. intros kp.
  apply quiet_bind; [quiet_step|]. intros _.
  apply quiet_bind; [apply quiet_keypairs|]. intros ids. quiet_step.
Qed.

Lemma quiet_airdropTokens pubKey sol : quiet (airdropTokens env pubKey sol).
Proof.
  unfold airdropTokens, new_Connection, requestAirdrop, confirmTransaction.
  quiet_step; [quiet_step|]. quiet_step; [apply quiet_localKeypair|].
  repeat quiet_step.
Qed.

Lemma quiet_runValidator : quiet (runValidator).
Proof. unfold runValidator. quiet_step. Qed.

Lemma quiet_exec_promisified command limit : quiet (exec_promisified env command limit).
Proof. unfold exec_promisified. repeat quiet_step. Qed.

Lemma quiet_validatorLogs filter : quiet (validatorLogs env filter).
Proof.
  unfold validatorLogs. quiet_step; [apply quiet_exec_promisified|quiet_step].
Qed.

End Components.

(** ** The dispatcher *)

Section Dispatcher.
Context `{Web3} `{Js.RegExpEngine} `{Json}.
Variable env : Env.

Lemma handle_answers req : answers_iff_ok (handle env req).
Proof.
  destruct req; unfold handle.
  - apply answers_bind; [apply quiet_connectSOL|auto with effects].
  - apply answers_bind; [apply quiet_runValidator|auto with effects].
  - apply answers_bind; [apply quiet_validatorLogs|auto with effects].
  - apply answers_bind; [apply quiet_keypairs|auto with effects].
  - apply answers_bind; [apply quiet_addKeypair|]. intros _.
    apply answers_bind; [apply quiet_keypairs|auto with effects].
  - apply answers_bind; [apply quiet_airdropTokens|auto with effects].
  - apply answers_bind; [apply quiet_exec_promisified|]. intros out.
    destruct (JSON_parse (stdout out)); auto with effects.
Qed.

(** The probe always returns a state. *)
Lemma connectSOL_run w :
  connectSOL env w
  = match getEpochInfo_reply env with
    | Ok _ =>
        (Ok {| running := true; keyId := "" |},
         after (Rpc GetEpochInfo) (after (NewConnection "http://127.0.0.1:8899") w))
    | Err _ =>
        (Ok {| running := false; keyId := "" |},
         after (ConsoleLog "COULD NOT CONNECT")
           (after (Rpc GetEpochInfo)
              (after (NewConnection "http://127.0.0.1:8899") w)))
    end.
Proof.
  unfold connectSOL, try_, bind, new_Connection, getEpochInfo, console_log,
    emit, lift, ret, after, bind. simpl.
  now destruct (getEpochInfo_reply env).
Qed.

Lemma handle_Init_ok w : is_Ok (fst (handle env Init w)) = true.
Proof.
  unfold handle, bind. rewrite connectSOL_run.
  now destruct (getEpochInfo_reply env).
Qed.

Lemma handle_RunValidator_ok w : is_Ok (fst (handle env RunValidator w)) = true.
Proof. reflexivity. Qed.

End Dispatcher.

Section ComponentsDecide.
Context `{Web3} `{Js.RegExpEngine} `{Json}.
Variable env : Env.

(** The handler's promise is fulfilled exactly when every component it calls
    succeeds: nothing in a handler fails after the components, and nothing
    catches what they throw. *)
Lemma handle_ok_iff_components req w :
  is_Ok (fst (handle env req w)) = components_succeed env req w.
Proof.
  destruct req as [| |filter| | |pubKey solAmount|programID];
    unfold handle, components_succeed.
  - unfold bind. now destruct (connectSOL env w) as [[st|e] w1].
  - reflexivity.
  - unfold bind. now destruct (validatorLogs env filter w) as [[logs|e] w1].
  - unfold bind. now destruct (keypairs env w) as [[pairs|e] w1].
  - unfold bind at 1. destruct (addKeypair env w) as [[ids|e] w1]; simpl;
      [|reflexivity].
    unfold bind. now destruct (keypairs env w1) as [[pairs|e] w2].
  - unfold bind. now destruct (airdropTokens env pubKey solAmount w) as [[u|e] w1].
  - unfold bind.
    destruct (exec_promisified env _ default_maxBuffer w) as [[out|e] w1]; simpl;
      [|reflexivity].
    destruct (JSON_parse (stdout out)) as [idl|] eqn:Hparse; simpl.
    + reflexivity.
    + reflexivity.
Qed.

Lemma components_succeed_Init w : components_succeed env Init w = true.
Proof. rewrite <- handle_ok_iff_components. apply handle_Init_ok. Qed.

End ComponentsDecide.

(** C1, as the code has it.  A handler sends exactly one reply when the
    components it calls succeed and none when one of them fails, in which
    case its promise is rejected; it never sends more than one.  The
    components of [init] and [run-validator] cannot fail, so these two
    requests always get their reply. *)
Theorem handle_replies_once_unless_failure
  `{Web3} `{Js.RegExpEngine} `{Json} (env : Env) (req : request) (w : World) :
  (exists new,
      trace (snd (handle env req w)) = trace w ++ new
      /\ length (replies new)
         = if components_succeed env req w then 1%nat else 0%nat)
  /\ is_Ok (fst (handle env req w)) = components_succeed env req w
  /\ components_succeed env Init w = true
  /\ components_succeed env RunValidator w = true.
Proof.
  split; [|split; [apply handle_ok_iff_components|split]].
  - rewrite <- handle_ok_iff_components. apply handle_answers.
  - apply components_succeed_Init.
  - reflexivity.
Qed.

(** C5. The probe never fails: it returns a state whose [keyId] is empty and
    whose [running] flag tells whether the status call succeeded; the file
    system is left as it was. *)
Theorem connectSOL_never_raises `{Json} (env : Env) (w : World) :
  exists st w',
    connectSOL env w = (Ok st, w')
    /\ keyId st = ""
    /\ running st = is_Ok (getEpochInfo_reply env)
    /\ fs w' = fs w.
Proof.
  rewrite connectSOL_run. destruct (getEpochInfo_reply env); eexists _, _;
    repeat split.
Qed.

(** ** Funding *)

Section Funding.
Context `{Web3} `{Json}.
Variable env : Env.




End Funding.


(** ** The file system *)

Section FileSystem.
Implicit Types (fsys : gmap Fs.path Fs.node) (p q dir : Fs.path) (name : string).

Lemma path_join_not_nil dir name : Fs.path_join dir name <> [].
Proof. unfold Fs.path_join. now destruct dir. Qed.

Lemma dirname_join dir name : Fs.dirname (Fs.path_join dir name) = dir.
Proof. apply removelast_last. Qed.

Lemma path_join_not_dir dir name : Fs.path_join dir name <> dir.
Proof.
  unfold Fs.path_join. intros E. apply (f_equal (@length string)) in E.
  rewrite length_app in E. simpl in E. lia.
Qed.

Lemma node_at_join fsys dir name :
  Fs.node_at fsys (Fs.path_join dir name) = fsys !! Fs.path_join dir name.
Proof.
  unfold Fs.node_at. pose proof (path_join_not_nil dir name).
  now destruct (Fs.path_join dir name).
Qed.

Lemma node_at_lookup fsys p : p <> [] -> Fs.node_at fsys p = fsys !! p.
Proof. now destruct p. Qed.

Lemma node_at_insert_ne fsys p q n :
  p <> q -> Fs.node_at (<[q := n]> fsys) p = Fs.node_at fsys p.
Proof.
  intros Hne. destruct p; [reflexivity|]. simpl. now rewrite lookup_insert_ne.
Qed.

Lemma entry_name_join dir name : Fs.entry_name dir (Fs.path_join dir name) = Some name.
Proof.
  unfold Fs.entry_name, Fs.path_join. rewrite last_snoc, removelast_last.
  now rewrite decide_True.
Qed.

Lemma mkdirSync_join fsys dir name :
  Fs.mkdirSync fsys (Fs.path_join dir name)
  = match Fs.node_at fsys dir with
    | None => Err ENOENT
    | Some Fs.Dir =>
        match fsys !! Fs.path_join dir name with
        | Some _ => Err EEXIST
        | None => Ok (<[Fs.path_join dir name := Fs.Dir]> fsys)
        end
    | Some _ => Err ENOTDIR
    end.
Proof.
  unfold Fs.mkdirSync. rewrite dirname_join.
  pose proof (path_join_not_nil dir name).
  now destruct (Fs.path_join dir name).
Qed.

(** Where following links ends, there is no link. *)
Lemma follow_NoEntry fuel fsys p q :
  Fs.follow fuel fsys p = Ok (Fs.NoEntry q) -> Fs.node_at fsys q = None.
Proof.
  revert p. induction fuel as [|fuel IH]; intros p; simpl;
    destruct (Fs.node_at fsys p) as [[d| |t]|] eqn:Hp; try discriminate;
    try (intros [= <-]; exact Hp).
  apply IH.
Qed.

Lemma follow_RegularFile fuel fsys p q d :
  Fs.follow fuel fsys p = Ok (Fs.RegularFile q d) ->
  Fs.node_at fsys q = Some (Fs.File d).
Proof.
  revert p. induction fuel as [|fuel IH]; intros p; simpl;
    destruct (Fs.node_at fsys p) as [[d'| |t]|] eqn:Hp; try discriminate;
    try (intros [= <- <-]; exact Hp).
  apply IH.
Qed.

Lemma follow_Directory fuel fsys p q :
  Fs.follow fuel fsys p = Ok (Fs.Directory q) -> Fs.node_at fsys q = Some Fs.Dir.
Proof.
  revert p. induction fuel as [|fuel IH]; intros p; simpl;
    destruct (Fs.node_at fsys p) as [[d'| |t]|] eqn:Hp; try discriminate;
    try (intros [= <-]; exact Hp).
  apply IH.
Qed.

Lemma follow_plain_dir fuel fsys p :
  Fs.node_at fsys p = Some Fs.Dir -> Fs.follow fuel fsys p = Ok (Fs.Directory p).
Proof. intros Hp. destruct fuel; simpl; now rewrite Hp. Qed.

Lemma follow_absent fuel fsys p :
  Fs.node_at fsys p = None -> Fs.follow fuel fsys p = Ok (Fs.NoEntry p).
Proof. intros Hp. destruct fuel; simpl; now rewrite Hp. Qed.

(** A path that led to a file, or to nothing, at [q] leads to the new file
    once a file has been put at [q]. *)
Lemma follow_insert_file fuel fsys p q d :
  (Fs.follow fuel fsys p = Ok (Fs.NoEntry q)
   \/ exists d0, Fs.follow fuel fsys p = Ok (Fs.RegularFile q d0)) ->
  Fs.follow fuel (<[q := Fs.File d]> fsys) p = Ok (Fs.RegularFile q d).
Proof.
  intros Hend.
  assert (Hq : Fs.node_at fsys q = None \/ exists d0, Fs.node_at fsys q = Some (Fs.File d0)).
  { destruct Hend as [Hn|[d0 Hf]]; [left|right; exists d0].
    - eapply follow_NoEntry, Hn.
    - eapply follow_RegularFile, Hf. }
  assert (Hqne : q <> []).
  { intros ->. simpl in Hq. destruct Hq as [?|[? ?]]; discriminate. }
  assert (Hnew : Fs.node_at (<[q := Fs.File d]> fsys) q = Some (Fs.File d)).
  { rewrite node_at_lookup by assumption. apply lookup_insert_eq. }
  revert p Hend. induction fuel as [|fuel IH]; intros p Hend; simpl in *.
  - destruct (Fs.node_at fsys p) as [[d'| |t]|] eqn:Hp.
    + destruct Hend as [?|[d0 [= -> ->]]]; [discriminate|]. now rewrite Hnew.
    + destruct Hend as [?|[d0 ?]]; discriminate.
    + destruct Hend as [?|[d0 ?]]; discriminate.
    + destruct Hend as [[= ->]|[d0 ?]]; [|discriminate]. now rewrite Hnew.
  - destruct (Fs.node_at fsys p) as [[d'| |t]|] eqn:Hp.
    + destruct Hend as [?|[d0 [= -> ->]]]; [discriminate|]. now rewrite Hnew.
    + destruct Hend as [?|[d0 ?]]; discriminate.
    + assert (p <> q).
      { intros ->. destruct Hq as [Hq|[d0 Hq]]; congruence. }
      rewrite node_at_insert_ne, Hp by assumption. now apply IH.
    + destruct Hend as [[= ->]|[d0 ?]]; [|discriminate]. now rewrite Hnew.
Qed.

(** Reading back what was just written. *)
Lemma readFileSync_writeFileSync fsys fsys' p d :
  Fs.writeFileSync fsys p d = Ok fsys' -> Fs.readFileSync fsys' p = Ok d.
Proof.
  unfold Fs.writeFileSync, Fs.readFileSync.
  destruct (Fs.follow Fs.MAXSYMLINKS fsys p) as [[q|q d0|q]|] eqn:Hf; try discriminate.
  - destruct (Fs.node_at fsys (Fs.dirname q)) as [[| |]|]; try discriminate.
    intros [= <-]. rewrite (follow_insert_file _ _ _ q d); auto.
  - intros [= <-]. rewrite (follow_insert_file _ _ _ q d); eauto.
Qed.

End FileSystem.

(** ** Start-up *)

Section Startup.
Variable env : Env.

Lemma existsSync_plain_dir (fsys : gmap Fs.path Fs.node) p :
  Fs.node_at fsys p = Some Fs.Dir -> Fs.existsSync fsys p = true.
Proof.
  intros Hp. unfold Fs.existsSync, Fs.stat.
  now rewrite (follow_plain_dir _ _ _ Hp).
Qed.

Lemma existsSync_absent (fsys : gmap Fs.path Fs.node) p :
  Fs.node_at fsys p = None -> Fs.existsSync fsys p = false.
Proof.
  intros Hp. unfold Fs.existsSync, Fs.stat.
  now rewrite (follow_absent _ _ _ Hp).
Qed.

Lemma ensure_dirs_noop (fsys : gmap Fs.path Fs.node) :
  Fs.existsSync fsys (WORKBENCH_DIR_PATH env) = true ->
  ensure_dirs env fsys = Ok fsys.
Proof. intros Hex. unfold ensure_dirs. now rewrite Hex. Qed.

Lemma keys_absent_without_root (fsys : gmap Fs.path Fs.node) :
  Fs.well_formed fsys ->
  fsys !! WORKBENCH_DIR_PATH env = None ->
  fsys !! KEYPAIR_DIR_PATH env = None.
Proof.
  intros Hwf Hroot. destruct (fsys !! KEYPAIR_DIR_PATH env) as [n|] eqn:Hk;
    [|reflexivity].
  destruct (Hwf _ _ Hk) as [_ Hparent].
  unfold KEYPAIR_DIR_PATH in Hparent. rewrite dirname_join in Hparent.
  unfold WORKBENCH_DIR_PATH in *. rewrite node_at_join in Hparent. congruence.
Qed.

Lemma ensure_dirs_creates (fsys : gmap Fs.path Fs.node) :
  Fs.well_formed fsys ->
  fsys !! WORKBENCH_DIR_PATH env = None ->
  Fs.node_at fsys (homedir env) = Some Fs.Dir ->
  ensure_dirs env fsys
  = Ok (<[KEYPAIR_DIR_PATH env := Fs.Dir]> (<[WORKBENCH_DIR_PATH env := Fs.Dir]> fsys)).
Proof.
  intros Hwf Hroot Hhome.
  pose proof (keys_absent_without_root _ Hwf Hroot) as Hkeys.
  unfold ensure_dirs. rewrite existsSync_absent.
  2:{ unfold WORKBENCH_DIR_PATH. now rewrite node_at_join. }
  simpl. unfold KEYPAIR_DIR_PATH, WORKBENCH_DIR_PATH in *.
  rewrite mkdirSync_join, Hhome, Hroot.
  rewrite mkdirSync_join, node_at_join, lookup_insert_eq.
  rewrite lookup_insert_ne by (apply not_eq_sym, path_join_not_dir).
  now rewrite Hkeys.
Qed.

Lemma store_initialized_after_creation (fsys : gmap Fs.path Fs.node) :
  store_initialized env
    (<[KEYPAIR_DIR_PATH env := Fs.Dir]> (<[WORKBENCH_DIR_PATH env := Fs.Dir]> fsys)).
Proof.
  unfold store_initialized, KEYPAIR_DIR_PATH, WORKBENCH_DIR_PATH.
  rewrite !node_at_join. split.
  - rewrite lookup_insert_ne by (apply path_join_not_dir). apply lookup_insert_eq.
  - apply lookup_insert_eq.
Qed.

Lemma ensure_dirs_idempotent (fsys fsys' : gmap Fs.path Fs.node) :
  ensure_dirs env fsys = Ok fsys' -> ensure_dirs env fsys' = Ok fsys'.
Proof.
  unfold ensure_dirs at 1.
  destruct (Fs.existsSync fsys (WORKBENCH_DIR_PATH env)) eqn:Hex; simpl.
  - intros [= <-]. now apply ensure_dirs_noop.
  - unfold WORKBENCH_DIR_PATH, KEYPAIR_DIR_PATH. rewrite mkdirSync_join.
    destruct (Fs.node_at fsys (homedir env)) as [[| |]|]; try discriminate.
    destruct (fsys !! _); [discriminate|].
    rewrite mkdirSync_join. unfold WORKBENCH_DIR_PATH.
    rewrite node_at_join, lookup_insert_eq.
    destruct (_ !! _); [discriminate|]. intros [= <-].
    apply ensure_dirs_noop, existsSync_plain_dir.
    exact (proj1 (store_initialized_after_creation fsys)).
Qed.

End Startup.

(** C6, as the code has it.  The guard looks at the root directory alone.
    When the root is there, initialization changes nothing and is not an
    error, so it is a no-op on an initialized store; when the root is missing
    from a well-formed file system whose home directory exists, both
    directories are created; and initialization is idempotent. *)
Theorem ensure_dirs_guarded_by_root (env : Env) (fsys : gmap Fs.path Fs.node) :
  (Fs.existsSync fsys (WORKBENCH_DIR_PATH env) = true -> ensure_dirs env fsys = Ok fsys)
  /\ (store_initialized env fsys -> ensure_dirs env fsys = Ok fsys)
  /\ (Fs.well_formed fsys ->
      fsys !! WORKBENCH_DIR_PATH env = None ->
      Fs.node_at fsys (homedir env) = Some Fs.Dir ->
      exists fsys', ensure_dirs env fsys = Ok fsys' /\ store_initialized env fsys')
  /\ (forall fsys', ensure_dirs env fsys = Ok fsys' -> ensure_dirs env fsys' = Ok fsys').
Proof.
  repeat split.
  - apply ensure_dirs_noop.
  - intros [Hroot _]. now apply ensure_dirs_noop, existsSync_plain_dir.
  - intros Hwf Hroot Hhome. eexists. split.
    + now apply ensure_dirs_creates.
    + apply store_initialized_after_creation.
  - apply ensure_dirs_idempotent.
Qed.

(** ** The keypair store *)

Section Store.
Context `{Web3} `{Json}.

Lemma pure_read_ret {A} (a : A) : pure_read (ret a).
Proof. now intros w. Qed.

Lemma pure_read_throw {A} e : pure_read (@throw _ A e).
Proof. now intros w. Qed.

Lemma pure_read_read_fs {A} (op : gmap Fs.path Fs.node -> result A) :
  pure_read (read_fs op).
Proof. now intros w. Qed.

Lemma pure_read_bind {A B} (m : M A) (k : A -> M B) :
  pure_read m -> (forall a, pure_read (k a)) -> pure_read (bind m k).
Proof.
  intros Hm Hk w. unfold bind. specialize (Hm w).
  destruct (m w) as [[a|e] w1]; simpl in *; subst; [apply Hk|reflexivity].
Qed.

Lemma pure_read_load_async keyPath : pure_read (load_async keyPath).
Proof.
  unfold load_async. apply pure_read_bind; [apply pure_read_read_fs|].
  intros data. unfold fromSecretKey.
  destruct (Keypair_fromSecretKey data);
    [apply pure_read_ret|apply pure_read_throw].
Qed.

Lemma pure_read_Promise_all {A} (ps : list (M A)) :
  Forall pure_read ps -> pure_read (Promise_all ps).
Proof.
  induction 1 as [|p ps Hp _ IH]; intros w; simpl; [reflexivity|].
  specialize (Hp w). destruct (p w) as [r w1]. simpl in Hp. subst w1.
  specialize (IH w). destruct (Promise_all ps w) as [rs w2]. simpl in *.
  now subst.
Qed.

(** When the bodies only read, a fulfilled [Promise.all] holds, position by
    position, what each body returns in the same world. *)
Lemma Promise_all_values {A} (ps : list (M A)) w vs :
  Forall pure_read ps ->
  fst (Promise_all ps w) = Ok vs ->
  Forall2 (fun p v => fst (p w) = Ok v) ps vs.
Proof.
  intros Hps. revert vs. induction Hps as [|p ps Hp _ IH]; intros vs; simpl.
  - intros [= <-]. constructor.
  - specialize (Hp w). destruct (p w) as [r w1] eqn:Hpw. simpl in Hp. subst w1.
    destruct (Promise_all ps w) as [rs w2]. simpl in *.
    destruct r as [a|e]; [|discriminate]. destruct rs as [l|e]; [|discriminate].
    intros [= <-]. constructor; [now rewrite Hpw|now apply IH].
Qed.

(** A promise is truthy whatever it resolves to: the filter of [keypairs]
    keeps every path. *)
Lemma filter_keeps_every_path (paths : list Fs.path) :
  List.filter (fun keyPath => ToBoolean_promise (isFile_async keyPath)) paths
  = paths.
Proof. induction paths as [|p ps IH]; simpl; [reflexivity|now rewrite IH]. Qed.

Variable env : Env.

Lemma keypairs_run w :
  keypairs env w
  = (match Fs.readdir (fs w) (KEYPAIR_DIR_PATH env) with
     | Err e => Err e
     | Ok names =>
         match fst (Promise_all
                      (map load_async
                         (map (Fs.path_join (KEYPAIR_DIR_PATH env)) names)) w) with
         | Err e => Err e
         | Ok keys => Ok (map identifier keys)
         end
     end, w).
Proof.
  unfold keypairs, bind, read_fs.
  destruct (Fs.readdir (fs w) (KEYPAIR_DIR_PATH env)) as [names|e]; [|reflexivity].
  rewrite filter_keeps_every_path.
  set (ps := map load_async _).
  assert (Hps : Forall pure_read ps).
  { apply List.Forall_forall. intros p Hp.
    apply List.in_map_iff in Hp as (keyPath & <- & _).
    apply pure_read_load_async. }
  pose proof (pure_read_Promise_all ps Hps w) as Hw.
  destruct (Promise_all ps w) as [[keys|e] w1]; simpl in *; now subst.
Qed.

Lemma pure_read_keypairs : pure_read (keypairs env).
Proof. intros w. now rewrite keypairs_run. Qed.

(** Every entry of the keys directory that loads is listed. *)
Lemma keypairs_lists_entry w ids name kp :
  fst (keypairs env w) = Ok ids ->
  Fs.node_at (fs w) (KEYPAIR_DIR_PATH env) = Some Fs.Dir ->
  is_Some (fs w !! Fs.path_join (KEYPAIR_DIR_PATH env) name) ->
  fst (load_async (Fs.path_join (KEYPAIR_DIR_PATH env) name) w) = Ok kp ->
  In (identifier kp) ids.
Proof.
  rewrite keypairs_run. simpl. intros Hids Hdir [n Hn] Hload.
  unfold Fs.readdir in Hids.
  rewrite (follow_plain_dir _ _ _ Hdir) in Hids.
  set (names := omap _ _) in Hids.
  assert (Hname : name ∈ names).
  { apply list_elem_of_omap. exists (Fs.path_join (KEYPAIR_DIR_PATH env) name, n).
    split; [now apply elem_of_map_to_list|apply entry_name_join]. }
  destruct (fst (Promise_all _ w)) as [keys|e] eqn:Hall; [|discriminate].
  injection Hids as <-.
  apply Promise_all_values in Hall.
  2:{ apply List.Forall_forall. intros p Hp.
      apply List.in_map_iff in Hp as (keyPath & <- & _).
      apply pure_read_load_async. }
  apply list_elem_of_In in Hname. clear Hn. revert keys Hall.
  induction names as [|x xs IH]; [contradiction|]. intros keys Hall.
  simpl in Hall. inversion Hall as [|p v ps vs Hv Hrest]; subst.
  destruct Hname as [->|Hin].
  - left. congruence.
  - right. now apply (IH Hin).
Qed.

(** One rejected body is enough for [Promise.all] to reject. *)
Lemma Promise_all_rejects {A} (ps : list (M A)) w p e :
  Forall pure_read ps ->
  In p ps -> fst (p w) = Err e ->
  exists e', fst (Promise_all ps w) = Err e'.
Proof.
  intros Hps. induction Hps as [|q ps Hq Hps IH]; intros Hin Hp; [contradiction|].
  simpl. specialize (Hq w). destruct (q w) as [r w1] eqn:Hqw. simpl in Hq. subst w1.
  destruct Hin as [->|Hin].
  - rewrite Hqw in Hp. simpl in Hp. subst r.
    destruct (Promise_all ps w) as [rs w2]. simpl. eauto.
  - destruct (IH Hin Hp) as [e' He'].
    destruct (Promise_all ps w) as [rs w2]. simpl in *. subst rs.
    destruct r; eauto.
Qed.

(** Whenever the keys directory holds a subdirectory, the listing fails. *)
Lemma keypairs_rejects_subdirectory w name :
  Fs.node_at (fs w) (KEYPAIR_DIR_PATH env) = Some Fs.Dir ->
  fs w !! Fs.path_join (KEYPAIR_DIR_PATH env) name = Some Fs.Dir ->
  exists e, fst (keypairs env w) = Err e.
Proof.
  intros Hdir Hsub. rewrite keypairs_run. simpl.
  unfold Fs.readdir. rewrite (follow_plain_dir _ _ _ Hdir).
  set (names := omap _ _).
  assert (Hname : In name names).
  { apply list_elem_of_In, list_elem_of_omap.
    exists (Fs.path_join (KEYPAIR_DIR_PATH env) name, Fs.Dir).
    split; [now apply elem_of_map_to_list|apply entry_name_join]. }
  destruct (Promise_all_rejects
              (map load_async (map (Fs.path_join (KEYPAIR_DIR_PATH env)) names))
              w (load_async (Fs.path_join (KEYPAIR_DIR_PATH env) name)) EISDIR)
    as [e' He'].
  - apply List.Forall_forall. intros p Hp.
    apply List.in_map_iff in Hp as (keyPath & <- & _). apply pure_read_load_async.
  - apply List.in_map, List.in_map, Hname.
  - assert (Hread : Fs.readFileSync (fs w) (Fs.path_join (KEYPAIR_DIR_PATH env) name)
                    = Err EISDIR).
    { unfold Fs.readFileSync. rewrite follow_plain_dir; [reflexivity|].
      now rewrite node_at_join. }
    unfold load_async, bind, read_fs. now rewrite Hread.
  - rewrite He'. eauto.
Qed.

End Store.

Section RoundTrip.
Context `{Web3} `{!Web3Laws} `{Json}.
Variable env : Env.

(** After a successful write of [dir/name] in a well-formed file system,
    [dir] is a directory and has an entry called [name]. *)
Lemma writeFileSync_entry (fsys fsys' : gmap Fs.path Fs.node) dir name d :
  Fs.well_formed fsys ->
  Fs.writeFileSync fsys (Fs.path_join dir name) d = Ok fsys' ->
  Fs.node_at fsys' dir = Some Fs.Dir
  /\ is_Some (fsys' !! Fs.path_join dir name).
Proof.
  intros Hwf. unfold Fs.writeFileSync.
  destruct (fsys !! Fs.path_join dir name) as [n|] eqn:Hp.
  - destruct (Hwf _ _ Hp) as [_ Hdir]. rewrite dirname_join in Hdir.
    assert (Hgoal : forall q,
               (Fs.node_at fsys q = None \/ exists d0, Fs.node_at fsys q = Some (Fs.File d0)) ->
               Fs.node_at (<[q := Fs.File d]> fsys) dir = Some Fs.Dir
               /\ is_Some (<[q := Fs.File d]> fsys !! Fs.path_join dir name)).
    { intros q Hq. split.
      - rewrite node_at_insert_ne; [assumption|].
        intros ->. destruct Hq as [Hq|[d0 Hq]]; congruence.
      - rewrite lookup_insert. case_decide; eauto. }
    destruct (Fs.follow Fs.MAXSYMLINKS fsys (Fs.path_join dir name))
      as [[q|q d0|q]|] eqn:Hf; try discriminate.
    + destruct (Fs.node_at fsys (Fs.dirname q)) as [[| |]|]; try discriminate.
      intros [= <-]. apply Hgoal. left. eapply follow_NoEntry, Hf.
    + intros [= <-]. apply Hgoal. right. exists d0. eapply follow_RegularFile, Hf.
  - rewrite follow_absent by (now rewrite node_at_join).
    rewrite dirname_join.
    destruct (Fs.node_at fsys dir) as [[| |]|] eqn:Hdir; try discriminate.
    intros [= <-]. split.
    + rewrite node_at_insert_ne; [assumption|apply not_eq_sym, path_join_not_dir].
    + rewrite lookup_insert_eq. eauto.
Qed.

Lemma localKeypair_stored pubKey kp w :
  Fs.readFileSync (fs w) (Fs.path_join (KEYPAIR_DIR_PATH env) pubKey) = Ok (secretKey kp) ->
  Keypair_fromSecretKey (secretKey kp) = Some kp ->
  localKeypair env pubKey w = (Ok kp, w).
Proof.
  intros Hread Hkey. unfold localKeypair, bind, read_fs, fromSecretKey.
  now rewrite Hread, Hkey.
Qed.

Lemma load_async_stored keyPath kp w :
  Fs.readFileSync (fs w) keyPath = Ok (secretKey kp) ->
  Keypair_fromSecretKey (secretKey kp) = Some kp ->
  load_async keyPath w = (Ok kp, w).
Proof.
  intros Hread Hkey. unfold load_async, bind, read_fs, fromSecretKey.
  now rewrite Hread, Hkey.
Qed.

(** [addKeypair] step by step: draw, write, list. *)
Lemma addKeypair_run w :
  addKeypair env w
  = match Fs.writeFileSync (fs w)
            (Fs.path_join (KEYPAIR_DIR_PATH env) (identifier (generated env w)))
            (secretKey (generated env w)) with
    | Err e => (Err e, {| fs := fs w; draws := S (draws w); trace := trace w |})
    | Ok fsys =>
        keypairs env {| fs := fsys; draws := S (draws w); trace := trace w |}
    end.
Proof.
  unfold addKeypair, Keypair_generate, random_seed, write_fs, bind, ret,
    generated, identifier. simpl.
  destruct (Fs.writeFileSync _ _ _) as [fsys|e]; [|reflexivity].
  now destruct (keypairs env _) as [[ids|e] w1].
Qed.

End RoundTrip.

(** C7. After [addKeypair] has succeeded, the file named by the identifier of
    the generated keypair holds its secret bytes, [localKeypair] on that
    identifier succeeds and yields a keypair with those secret bytes, and, in
    a well-formed file system, the identifier is in the list that [addKeypair]
    returned. *)
Theorem generated_keypair_loads_back
  `{Web3} `{!Web3Laws} `{Json} (env : Env) (w w' : World) (ids : list string) :
  length (randomBytes env (draws w)) = 32%nat ->
  addKeypair env w = (Ok ids, w') ->
  Fs.readFileSync (fs w')
    (Fs.path_join (KEYPAIR_DIR_PATH env) (identifier (generated env w)))
  = Ok (secretKey (generated env w))
  /\ (exists kp,
        localKeypair env (identifier (generated env w)) w' = (Ok kp, w')
        /\ secretKey kp = secretKey (generated env w))
  /\ (Fs.well_formed (fs w) -> In (identifier (generated env w)) ids).
Proof.
  intros Hseed. rewrite addKeypair_run.
  destruct (Fs.writeFileSync _ _ _) as [fsys|e] eqn:Hwrite; [|discriminate].
  rewrite keypairs_run. intros Hrun.
  injection Hrun as Hids <-. simpl in *.
  pose proof (readFileSync_writeFileSync _ _ _ _ Hwrite) as Hread.
  pose proof (fromSecretKey_generated _ Hseed) as Hkey. fold (generated env w) in Hkey.
  split; [exact Hread|]. split.
  - exists (generated env w). split; [|reflexivity].
    now apply localKeypair_stored.
  - intros Hwf. destruct (writeFileSync_entry _ _ _ _ _ Hwf Hwrite) as [Hdir Hentry].
    set (w1 := {| fs := fsys; draws := S (draws w); trace := trace w |}).
    apply (keypairs_lists_entry env w1 ids (identifier (generated env w))
             (generated env w)).
    + rewrite keypairs_run. exact Hids.
    + exact Hdir.
    + exact Hentry.
    + now rewrite (load_async_stored _ (generated env w) w1).
Qed.


(** * Further properties *)

(** ** What each request touches *)

Section Footprint.
Context `{Web3} `{Js.RegExpEngine} `{Json}.

Lemma avoids_ret {A} (P : event -> bool) (a : A) : avoids P (ret a).
Proof. intros w. exists []. simpl. now rewrite app_nil_r. Qed.

Lemma avoids_throw {A} (P : event -> bool) e : avoids P (@throw _ A e).
Proof. intros w. exists []. simpl. now rewrite app_nil_r. Qed.

Lemma avoids_lift {A} (P : event -> bool) (r : result A) : avoids P (lift r).
Proof. intros w. exists []. simpl. now rewrite app_nil_r. Qed.

Lemma avoids_read_fs {A} (P : event -> bool) (op : gmap Fs.path Fs.node -> result A) :
  avoids P (read_fs op).
Proof. intros w. exists []. simpl. now rewrite app_nil_r. Qed.

Lemma avoids_write_fs (P : event -> bool) op : avoids P (write_fs op).
Proof.
  intros w. exists []. unfold write_fs. rewrite app_nil_r.
  now destruct (op (fs w)).
Qed.

Lemma avoids_random_seed (P : event -> bool) env : avoids P (random_seed env).
Proof. intros w. exists []. simpl. now rewrite app_nil_r. Qed.

Lemma avoids_emit (P : event -> bool) e : P e = false -> avoids P (emit e).
Proof. intros He w. exists [e]. simpl. now rewrite He. Qed.

Lemma avoids_bind {A B} (P : event -> bool) (m : M A) (k : A -> M B) :
  avoids P m -> (forall a, avoids P (k a)) -> avoids P (bind m k).
Proof.
  intros Hm Hk w. unfold bind. destruct (Hm w) as (n1 & Ht1 & Hr1).
  destruct (m w) as [[a|e] w1]; simpl in *.
  - destruct (Hk a w1) as (n2 & Ht2 & Hr2). exists (n1 ++ n2).
    rewrite Ht2, Ht1, app_assoc, List.filter_app, Hr1, Hr2. now split.
  - now exists n1.
Qed.

Lemma avoids_try {A} (P : event -> bool) (m : M A) : avoids P m -> avoids P (try_ m).
Proof.
  intros Hm w. unfold try_. destruct (Hm w) as (n1 & Ht1 & Hr1).
  destruct (m w) as [r w1]. now exists n1.
Qed.

Lemma avoids_pure_read {A} (P : event -> bool) (m : M A) : pure_read m -> avoids P m.
Proof. intros Hm w. exists []. now rewrite Hm, app_nil_r. Qed.

Lemma keeps_fs_ret {A} (a : A) : keeps_fs (ret a).
Proof. now intros w. Qed.

Lemma keeps_fs_throw {A} e : keeps_fs (@throw _ A e).
Proof. now intros w. Qed.

Lemma keeps_fs_lift {A} (r : result A) : keeps_fs (lift r).
Proof. now intros w. Qed.

Lemma keeps_fs_emit e : keeps_fs (emit e).
Proof. now intros w. Qed.

Lemma keeps_fs_bind {A B} (m : M A) (k : A -> M B) :
  keeps_fs m -> (forall a, keeps_fs (k a)) -> keeps_fs (bind m k).
Proof.
  intros Hm Hk w. unfold bind. specialize (Hm w).
  destruct (m w) as [[a|e] w1]; simpl in *; [|assumption].
  now rewrite Hk.
Qed.

Lemma keeps_fs_try {A} (m : M A) : keeps_fs m -> keeps_fs (try_ m).
Proof.
  intros Hm w. unfold try_. specialize (Hm w). now destruct (m w).
Qed.

Lemma keeps_fs_pure_read {A} (m : M A) : pure_read m -> keeps_fs m.
Proof. intros Hm w. now rewrite Hm. Qed.

End Footprint.

Create HintDb footprint.

#[local] Hint Resolve avoids_ret avoids_throw avoids_lift avoids_read_fs
  avoids_write_fs avoids_random_seed avoids_try avoids_pure_read
  keeps_fs_ret keeps_fs_throw keeps_fs_lift keeps_fs_emit keeps_fs_try
  keeps_fs_pure_read pure_read_keypairs pure_read_load_async : footprint.

Ltac footprint_step :=
  first
    [ apply avoids_emit; reflexivity
    | solve [auto with footprint]
    | apply avoids_bind; [|intros ?]
    | apply keeps_fs_bind; [|intros ?] ].

Section RequestFootprint.
Context `{Web3} `{Js.RegExpEngine} `{Json}.
Variable env : Env.

Lemma pure_read_localKeypair pubKey : pure_read (localKeypair env pubKey).
Proof.
  unfold localKeypair. apply pure_read_bind; [apply pure_read_read_fs|].
  intros data. unfold fromSecretKey.
  destruct (Keypair_fromSecretKey data); [apply pure_read_ret|apply pure_read_throw].
Qed.

Lemma keeps_fs_connectSOL : keeps_fs (connectSOL env).
Proof.
  intros w. rewrite connectSOL_run. now destruct (getEpochInfo_reply env).
Qed.

Lemma keeps_fs_exec_promisified command limit :
  keeps_fs (exec_promisified env command limit).
Proof. unfold exec_promisified. repeat footprint_step. Qed.

Lemma keeps_fs_airdropTokens pubKey sol : keeps_fs (airdropTokens env pubKey sol).
Proof.
  unfold airdropTokens, new_Connection, requestAirdrop, confirmTransaction.
  apply keeps_fs_bind; [footprint_step|]. intros _.
  apply keeps_fs_bind; [apply keeps_fs_pure_read, pure_read_localKeypair|].
  intros to. repeat footprint_step.
Qed.

Lemma keeps_fs_handle req : req <> AddKeypair -> keeps_fs (handle env req).
Proof.
  intros Hreq. destruct req; unfold handle, reply; try congruence.
  - apply keeps_fs_bind; [apply keeps_fs_connectSOL|intros; footprint_step].
  - unfold runValidator. repeat footprint_step.
  - apply keeps_fs_bind; [|intros; footprint_step].
    unfold validatorLogs.
    apply keeps_fs_bind; [apply keeps_fs_exec_promisified|intros; footprint_step].
  - apply keeps_fs_bind; [|intros; footprint_step].
    apply keeps_fs_pure_read, pure_read_keypairs.
  - apply keeps_fs_bind; [apply keeps_fs_airdropTokens|intros; footprint_step].
  - apply keeps_fs_bind; [apply keeps_fs_exec_promisified|]. intros out.
    destruct (JSON_parse (stdout out)); footprint_step.
Qed.

Lemma avoids_addKeypair (P : event -> bool) : avoids P (addKeypair env).
Proof.
  unfold addKeypair, Keypair_generate.
  apply avoids_bind; [repeat footprint_step|]. intros kp.
  apply avoids_bind; [footprint_step|]. intros _.
  apply avoids_bind; [apply avoids_pure_read, pure_read_keypairs|].
  intros ids. footprint_step.
Qed.

Lemma avoids_network_exec command limit :
  avoids is_network_call (exec_promisified env command limit).
Proof. unfold exec_promisified. repeat footprint_step. Qed.

Lemma avoids_network_handle req :
  req <> Init -> (forall pubKey sol, req <> Airdrop pubKey sol) ->
  avoids is_network_call (handle env req).
Proof.
  intros Hinit Hair.
  destruct req as [| |filter| | |pubKey solAmount|programID];
    unfold handle, reply; try congruence.
  - unfold runValidator. repeat footprint_step.
  - apply avoids_bind; [|intros; footprint_step].
    unfold validatorLogs.
    apply avoids_bind; [apply avoids_network_exec|intros; footprint_step].
  - apply avoids_bind; [|intros; footprint_step].
    apply avoids_pure_read, pure_read_keypairs.
  - apply avoids_bind; [apply avoids_addKeypair|]. intros _.
    apply avoids_bind; [|intros; footprint_step].
    apply avoids_pure_read, pure_read_keypairs.
  - apply avoids_bind; [apply avoids_network_exec|]. intros out.
    destruct (JSON_parse (stdout out)); footprint_step.
Qed.

Lemma avoids_exec_connectSOL : avoids is_exec (connectSOL env).
Proof.
  unfold connectSOL. apply avoids_bind.
  - apply avoids_try. unfold new_Connection, getEpochInfo. repeat footprint_step.
  - intros [?|?]; unfold console_log; repeat footprint_step.
Qed.

Lemma avoids_exec_airdropTokens pubKey sol :
  avoids is_exec (airdropTokens env pubKey sol).
Proof.
  unfold airdropTokens, new_Connection, requestAirdrop, confirmTransaction.
  apply avoids_bind; [footprint_step|]. intros _.
  apply avoids_bind; [apply avoids_pure_read, pure_read_localKeypair|].
  intros to. repeat footprint_step.
Qed.

Lemma avoids_exec_handle req :
  req = Init \/ req = Keypairs \/ req = AddKeypair
  \/ (exists pubKey sol, req = Airdrop pubKey sol) ->
  avoids is_exec (handle env req).
Proof.
  intros [->|[->|[->|(pubKey & sol & ->)]]]; unfold handle, reply.
  - apply avoids_bind; [apply avoids_exec_connectSOL|intros; footprint_step].
  - apply avoids_bind; [|intros; footprint_step].
    apply avoids_pure_read, pure_read_keypairs.
  - apply avoids_bind; [apply avoids_addKeypair|]. intros _.
    apply avoids_bind; [|intros; footprint_step].
    apply avoids_pure_read, pure_read_keypairs.
  - apply avoids_bind; [apply avoids_exec_airdropTokens|intros; footprint_step].
Qed.

Lemma replies_with_reply c p (Q : payload -> Prop) :
  Q p -> replies_with c Q (reply c p).
Proof. intros HQ w _. now exists [Reply c p], p. Qed.

Lemma replies_with_throw {A} c Q e : replies_with c Q (@throw _ A e).
Proof. intros w Hok. discriminate. Qed.

Lemma replies_with_bind {A B} c Q (m : M A) (k : A -> M B) :
  quiet m -> (forall a, replies_with c Q (k a)) -> replies_with c Q (bind m k).
Proof.
  intros Hm Hk w. unfold bind. destruct (Hm w) as (n1 & Ht1 & Hr1).
  destruct (m w) as [[a|e] w1]; simpl in *; [|discriminate].
  intros Hok. destruct (Hk a w1 Hok) as (n2 & p & Ht2 & Hr2 & HQ).
  exists (n1 ++ n2), p. rewrite Ht2, Ht1, app_assoc, replies_app, Hr1, Hr2.
  now repeat split.
Qed.

Lemma replies_with_handle req :
  replies_with (answer_channel req)
    (fun p => forall pubKey sol, req = Airdrop pubKey sol -> p = NoArgs)
    (handle env req).
Proof.
  destruct req; unfold handle, answer_channel, request_channel.
  - apply replies_with_bind; [apply quiet_connectSOL|].
    intros st. now apply replies_with_reply.
  - apply replies_with_bind; [apply quiet_runValidator|].
    intros _. now apply replies_with_reply.
  - apply replies_with_bind; [apply quiet_validatorLogs|].
    intros logs. now apply replies_with_reply.
  - apply replies_with_bind; [apply quiet_keypairs|].
    intros pairs. now apply replies_with_reply.
  - apply replies_with_bind; [apply quiet_addKeypair|]. intros _.
    apply replies_with_bind; [apply quiet_keypairs|].
    intros pairs. now apply replies_with_reply.
  - apply replies_with_bind; [apply quiet_airdropTokens|].
    intros _. now apply replies_with_reply.
  - apply replies_with_bind; [apply quiet_exec_promisified|]. intros out.
    destruct (JSON_parse (stdout out)).
    + now apply replies_with_reply.
    + apply replies_with_throw.
Qed.

End RequestFootprint.

(** X1. The requests [init], [keypairs] and [airdrop], which start no child
    process, never change the file system: whatever their outcome, the file
    system after them is the one before them. *)
Theorem init_keypairs_airdrop_keep_the_file_system
  `{Web3} `{Js.RegExpEngine} `{Json} (env : Env) (req : request) (w : World) :
  req = Init \/ req = Keypairs \/ (exists pubKey sol, req = Airdrop pubKey sol) ->
  fs (snd (handle env req w)) = fs w.
Proof.
  intros Hreq. apply keeps_fs_handle.
  destruct Hreq as [->|[->|(pubKey & sol & ->)]]; discriminate.
Qed.

(** X2. The store requests [keypairs] and [add-keypair] never talk to the RPC
    node: handling them adds no RPC call to the trace, whatever their
    outcome. *)
Theorem store_requests_make_no_rpc_call
  `{Web3} `{Js.RegExpEngine} `{Json} (env : Env) (req : request) (w : World) :
  req = Keypairs \/ req = AddKeypair ->
  exists new,
    trace (snd (handle env req w)) = trace w ++ new
    /\ network_calls new = [].
Proof.
  intros Hreq. apply avoids_network_handle;
    destruct Hreq as [->| ->]; try discriminate; intros; discriminate.
Qed.

(** X3. The requests [init], [keypairs], [add-keypair] and [airdrop] start no
    child process, whatever their outcome. *)
Theorem store_and_rpc_requests_start_no_process
  `{Web3} `{Js.RegExpEngine} `{Json} (env : Env) (req : request) (w : World) :
  req = Init \/ req = Keypairs \/ req = AddKeypair
  \/ (exists pubKey sol, req = Airdrop pubKey sol) ->
  exists new,
    trace (snd (handle env req w)) = trace w ++ new
    /\ List.filter is_exec new = [].
Proof. intros Hreq. now apply avoids_exec_handle. Qed.

(** X4. A request that is answered is answered on the channel it came in on,
    except [airdrop], whose answer goes out on the channel [airdrop success]
    and carries no argument. *)
Theorem answered_on_own_channel_except_airdrop
  `{Web3} `{Js.RegExpEngine} `{Json} (env : Env) (req : request) (w : World) :
  is_Ok (fst (handle env req w)) = true ->
  exists new p,
    trace (snd (handle env req w)) = trace w ++ new
    /\ replies new = [Reply (answer_channel req) p]
    /\ (forall pubKey sol, req = Airdrop pubKey sol ->
        p = NoArgs /\ answer_channel req <> request_channel req)
    /\ ((forall pubKey sol, req <> Airdrop pubKey sol) ->
        answer_channel req = request_channel req).
Proof.
  intros Hok. destruct (replies_with_handle env req w Hok) as (new & p & Ht & Hr & Hp).
  exists new, p. repeat split; try assumption.
  - eapply Hp; eassumption.
  - subst req. discriminate.
  - intros Hnot. destruct req as [| |filter| | |pubKey solAmount|programID];
      try reflexivity.
    now specialize (Hnot pubKey solAmount).
Qed.

(** ** More on the file system *)

Section FileSystemFrame.
Implicit Types (fsys : gmap Fs.path Fs.node) (p q dir : Fs.path) (name : string).

(** Creating an entry where there was none does not change where other paths
    lead. *)
Lemma follow_insert_absent fuel fsys p q n t :
  Fs.node_at fsys q = None ->
  Fs.follow fuel fsys p = Ok t ->
  t <> Fs.NoEntry q ->
  Fs.follow fuel (<[q := n]> fsys) p = Ok t.
Proof.
  intros Hq. revert p. induction fuel as [|fuel IH]; intros p; simpl.
  - destruct (Fs.node_at fsys p) as [[d| |l]|] eqn:Hp; intros Ht Hne;
      try discriminate.
    + rewrite node_at_insert_ne, Hp by congruence. exact Ht.
    + rewrite node_at_insert_ne, Hp by congruence. exact Ht.
    + injection Ht as <-. rewrite node_at_insert_ne, Hp by congruence. reflexivity.
  - destruct (Fs.node_at fsys p) as [[d| |l]|] eqn:Hp; intros Ht Hne.
    + rewrite node_at_insert_ne, Hp by congruence. exact Ht.
    + rewrite node_at_insert_ne, Hp by congruence. exact Ht.
    + rewrite node_at_insert_ne, Hp by congruence. now apply IH.
    + injection Ht as <-. rewrite node_at_insert_ne, Hp by congruence. reflexivity.
Qed.

Lemma readFileSync_insert_absent fsys p q n d :
  Fs.node_at fsys q = None ->
  Fs.readFileSync fsys p = Ok d ->
  Fs.readFileSync (<[q := n]> fsys) p = Ok d.
Proof.
  intros Hq. unfold Fs.readFileSync.
  destruct (Fs.follow Fs.MAXSYMLINKS fsys p) as [[?|q' d'|?]|] eqn:Hf;
    try discriminate.
  intros [= ->]. now rewrite (follow_insert_absent _ _ _ _ _ _ Hq Hf).
Qed.

Lemma entry_name_inv dir k name :
  Fs.entry_name dir k = Some name -> k = Fs.path_join dir name.
Proof.
  unfold Fs.entry_name, Fs.path_join.
  destruct (last k) as [x|] eqn:Hlast; [|discriminate].
  case_decide as Hdir; [|discriminate]. intros [= ->].
  apply last_Some in Hlast as [l' ->]. rewrite removelast_last in Hdir.
  now subst.
Qed.

(** The listing of a directory without entries is empty. *)
Lemma readdir_names_empty fsys dir :
  (forall name, fsys !! Fs.path_join dir name = None) ->
  omap (fun kv : Fs.path * Fs.node => Fs.entry_name dir (fst kv)) (map_to_list fsys) = [].
Proof.
  intros Hempty.
  destruct (omap _ _) as [|name names] eqn:Hnames; [reflexivity|exfalso].
  assert (Hin : name ∈ omap (fun kv : Fs.path * Fs.node => Fs.entry_name dir (fst kv))
                       (map_to_list fsys)).
  { rewrite Hnames. left. }
  apply list_elem_of_omap in Hin as ([k n] & Hkn & Hname). simpl in Hname.
  apply entry_name_inv in Hname as ->.
  apply elem_of_map_to_list in Hkn. now rewrite Hempty in Hkn.
Qed.

(** One new entry in a directory adds its name to the listing. *)
Lemma readdir_names_insert fsys dir name n :
  fsys !! Fs.path_join dir name = None ->
  omap (fun kv : Fs.path * Fs.node => Fs.entry_name dir (fst kv))
    (map_to_list (<[Fs.path_join dir name := n]> fsys))
  ≡ₚ name :: omap (fun kv : Fs.path * Fs.node => Fs.entry_name dir (fst kv))
               (map_to_list fsys).
Proof.
  intros Hnone. rewrite (map_to_list_insert _ _ _ Hnone). simpl.
  now rewrite entry_name_join.
Qed.

Lemma mkdirSync_Ok fsys fsys' p :
  Fs.mkdirSync fsys p = Ok fsys' ->
  fsys !! p = None /\ fsys' = <[p := Fs.Dir]> fsys.
Proof.
  unfold Fs.mkdirSync. intros Hmk.
  repeat case_match; try discriminate. injection Hmk as <-. now split.
Qed.

(** What a successful write does to the map: one entry, which was absent or
    a regular file, now holds the data. *)
Lemma writeFileSync_Ok fsys fsys' p d :
  Fs.writeFileSync fsys p d = Ok fsys' ->
  exists q,
    fsys' = <[q := Fs.File d]> fsys
    /\ (Fs.node_at fsys q = None \/ exists d0, Fs.node_at fsys q = Some (Fs.File d0))
    /\ (fsys !! p = None -> q = p).
Proof.
  unfold Fs.writeFileSync.
  destruct (Fs.follow Fs.MAXSYMLINKS fsys p) as [[q|q d0|q]|] eqn:Hf; try discriminate.
  - destruct (Fs.node_at fsys (Fs.dirname q)) as [[| |]|]; try discriminate.
    intros [= <-]. exists q. split; [reflexivity|]. split.
    + left. eapply follow_NoEntry, Hf.
    + intros Hp. destruct p as [|x p].
      * simpl in Hf. discriminate.
      * rewrite follow_absent in Hf by exact Hp. congruence.
  - intros [= <-]. exists q. split; [reflexivity|]. split.
    + right. exists d0. eapply follow_RegularFile, Hf.
    + intros Hp. destruct p as [|x p].
      * simpl in Hf. discriminate.
      * rewrite follow_absent in Hf by exact Hp. congruence.
Qed.

End FileSystemFrame.

(** ** More on funding *)

Section AirdropProtocol.
Context `{Web3} `{Json}.
Variable env : Env.

Lemma localKeypair_run pubKey w :
  localKeypair env pubKey w
  = (match Fs.readFileSync (fs w) (key_path env pubKey) with
     | Err e => Err e
     | Ok data =>
         match Keypair_fromSecretKey data with
         | Some kp => Ok kp
         | None => Err BadSecretKey
         end
     end, w).
Proof.
  unfold localKeypair, bind, read_fs, fromSecretKey, key_path.
  destruct (Fs.readFileSync _ _) as [data|e]; [|reflexivity].
  now destruct (Keypair_fromSecretKey data).
Qed.

(** The outcome of [localKeypair] depends on the file system alone. *)
Lemma localKeypair_same_fs pubKey w1 w2 :
  fs w1 = fs w2 ->
  fst (localKeypair env pubKey w1) = fst (localKeypair env pubKey w2).
Proof. intros Hfs. rewrite !localKeypair_run. simpl. now rewrite Hfs. Qed.

Lemma airdropTokens_run pubKey sol w :
  airdropTokens env pubKey sol w
  = match fst (localKeypair env pubKey w) with
    | Err e => (Err e, after (NewConnection "http://127.0.0.1:8899") w)
    | Ok to =>
        let w2 := after (Rpc (RequestAirdrop (publicKey to) (LAMPORTS_PER_SOL * sol)))
                    (after (NewConnection "http://127.0.0.1:8899") w) in
        match requestAirdrop_reply env (publicKey to) (LAMPORTS_PER_SOL * sol) with
        | Err e => (Err e, w2)
        | Ok signature =>
            (confirmTransaction_reply env signature,
             after (Rpc (ConfirmTransaction signature)) w2)
        end
    end.
Proof.
  unfold airdropTokens, new_Connection. unfold bind at 1. simpl.
  unfold bind at 1.
  rewrite (localKeypair_same_fs pubKey w
             {| fs := fs w; draws := draws w;
                trace := trace w ++ [NewConnection "http://127.0.0.1:8899"] |})
    by reflexivity.
  pose proof (pure_read_localKeypair env pubKey
                {| fs := fs w; draws := draws w;
                   trace := trace w ++ [NewConnection "http://127.0.0.1:8899"] |}) as Hw.
  destruct (localKeypair env pubKey _) as [[to|e] w1]; simpl in *; subst w1;
    [|reflexivity].
  unfold requestAirdrop, confirmTransaction, bind, emit, lift, after. simpl.
  now destruct (requestAirdrop_reply env _ _).
Qed.

End AirdropProtocol.

(** X5. When the key of the identifier loads and [sol] is a whole amount
    whose product with 1,000,000,000 is an integer that JavaScript numbers
    represent exactly, the airdrop asks the node for [sol] times
    1,000,000,000 lamports on the key's public key; if that request is
    rejected the airdrop fails with the same error and no confirmation is
    asked for; otherwise it asks for the confirmation of exactly the
    signature it got back, and its outcome is the outcome of that
    confirmation.  No other RPC call is made. *)
Theorem airdrop_requests_then_confirms
  `{Web3} `{Json} (env : Env) (pubKey : string) (sol : Z) (w : World) (to : Keypair) :
  exact_lamports sol ->
  fst (localKeypair env pubKey w) = Ok to ->
  exists new,
    trace (snd (airdropTokens env pubKey sol w)) = trace w ++ new
    /\ match requestAirdrop_reply env (publicKey to) (1000000000 * sol) with
       | Err e =>
           fst (airdropTokens env pubKey sol w) = Err e
           /\ network_calls new
              = [Rpc (RequestAirdrop (publicKey to) (1000000000 * sol))]
       | Ok signature =>
           fst (airdropTokens env pubKey sol w) = confirmTransaction_reply env signature
           /\ network_calls new
              = [Rpc (RequestAirdrop (publicKey to) (1000000000 * sol));
                 Rpc (ConfirmTransaction signature)]
       end.
Proof.
  intros _ Hkey. rewrite airdropTokens_run, Hkey. unfold LAMPORTS_PER_SOL.
  destruct (requestAirdrop_reply env (publicKey to) (1000000000 * sol))
    as [signature|e]; simpl; rewrite <- !app_assoc; eexists; split;
    try reflexivity; now split.
Qed.

(** X6. Whatever makes [localKeypair] fail (no file, a directory, bytes that
    are not a secret key), the airdrop fails with that error without any RPC
    call and without touching the file system. *)
Theorem airdrop_stops_when_key_does_not_load
  `{Web3} `{Json} (env : Env) (pubKey : string) (sol : Z) (w : World) (e : error) :
  fst (localKeypair env pubKey w) = Err e ->
  fst (airdropTokens env pubKey sol w) = Err e
  /\ network_calls (trace (snd (airdropTokens env pubKey sol w)))
     = network_calls (trace w)
  /\ fs (snd (airdropTokens env pubKey sol w)) = fs w.
Proof.
  intros Hkey. rewrite airdropTokens_run, Hkey. simpl.
  rewrite network_calls_app. simpl. now rewrite app_nil_r.
Qed.

(** ** More on the validator logs *)

Section LogOutcome.
Context `{Js.RegExpEngine} `{Json}.
Variable env : Env.

Lemma exec_outcome_is_Ok limit out :
  is_Ok (exec_outcome limit out) = true
  <-> exit_code out = 0
      /\ Z.of_nat (String.length (stdout out)) <= limit
      /\ Z.of_nat (String.length (stderr out)) <= limit.
Proof.
  unfold exec_outcome.
  destruct (Z.eqb_spec (exit_code out) 0) as [Hz|Hnz]; simpl.
  - destruct (Z.ltb_spec limit (Z.of_nat (String.length (stdout out))));
      destruct (Z.ltb_spec limit (Z.of_nat (String.length (stderr out))));
      simpl; split; try discriminate; try lia; intros; repeat split; auto; lia.
  - split; [discriminate|]. intros [? _]. contradiction.
Qed.

Lemma render_logs_is_Ok err filter :
  is_Ok (render_logs err filter) = true <-> is_Some (Js.RegExp_new filter).
Proof.
  unfold render_logs, displayed_lines.
  destruct (Js.RegExp_new filter) as [r|] eqn:Hr.
  - rewrite (matching_lines_compiled _ _ r Hr). simpl. split; eauto.
  - rewrite matching_lines_invalid by assumption. simpl.
    split; [discriminate|]. intros [? ?]. discriminate.
Qed.

Lemma validatorLogs_window filter w text w' :
  validatorLogs env filter w = (Ok text, w') ->
  exists r, Js.RegExp_new filter = Some r
            /\ text = Js.join nl (display_window (matched r env)).
Proof.
  intros Hrun. destruct (validatorLogs_Ok _ _ _ _ _ Hrun) as (shown & Hshown & ->).
  unfold displayed_lines in Hshown.
  destruct (matching_lines _ _) as [lines|] eqn:Hm; [|discriminate].
  injection Hshown as <-.
  destruct (matching_lines_inv _ _ _ Hm) as (r & Hr & ->).
  now exists r.
Qed.

End LogOutcome.

(** X7. [validatorLogs] returns a text exactly when the [docker logs]
    subprocess exits with code 0, neither of its output streams exceeds the
    100 MB buffer, and the filter is a valid regular expression.  With a
    successful subprocess an invalid filter makes the call fail with a
    SyntaxError whatever the log holds, even when it is empty. *)
Theorem validatorLogs_succeeds_iff
  `{Js.RegExpEngine} `{Json} (env : Env) (filter : string) (w : World) :
  (is_Ok (fst (validatorLogs env filter w)) = true
   <-> exit_code (logs_output env) = 0
       /\ Z.of_nat (String.length (stdout (logs_output env))) <= 104857600
       /\ Z.of_nat (String.length (stderr (logs_output env))) <= 104857600
       /\ is_Some (Js.RegExp_new filter))
  /\ (is_Ok (exec_outcome 104857600 (logs_output env)) = true ->
      Js.RegExp_new filter = None ->
      fst (validatorLogs env filter w) = Err SyntaxError).
Proof.
  rewrite validatorLogs_run. fold (logs_output env). unfold maxBuffer. split.
  - destruct (exec_outcome 104857600 (logs_output env)) as [out|e] eqn:Hout.
    + pose proof (exec_outcome_Ok _ _ _ Hout) as ->. simpl.
      rewrite render_logs_is_Ok.
      assert (Hok : is_Ok (exec_outcome 104857600 (logs_output env)) = true)
        by now rewrite Hout.
      apply exec_outcome_is_Ok in Hok. tauto.
    + simpl. split; [discriminate|]. intros (H1 & H2 & H3 & _).
      assert (Hok : is_Ok (exec_outcome 104857600 (logs_output env)) = true)
        by (apply exec_outcome_is_Ok; auto).
      rewrite Hout in Hok. discriminate.
  - intros Hok Hbad.
    destruct (exec_outcome 104857600 (logs_output env)) as [out|e] eqn:Hout;
      [|discriminate].
    pose proof (exec_outcome_Ok _ _ _ Hout) as ->. simpl.
    unfold render_logs, displayed_lines.
    now rewrite matching_lines_invalid.
Qed.

(** X8. The window of [validatorLogs]: when at least 31 lines match, the text
    is made of the last 30 matching lines, in the order of the stream; when at
    most 31 match, it is made of all matching lines but the oldest. *)
Theorem validatorLogs_window_of_matches
  `{Js.RegExpEngine} `{Json} (env : Env) (filter : string) (w w' : World)
  (text : string) :
  validatorLogs env filter w = (Ok text, w') ->
  exists r,
    Js.RegExp_new filter = Some r
    /\ ((31 <= length (matched r env))%nat ->
        text = Js.join nl (drop (length (matched r env) - 30) (matched r env)))
    /\ ((length (matched r env) <= 31)%nat ->
        text = Js.join nl (tail (matched r env))).
Proof.
  intros Hrun. destruct (validatorLogs_window env _ _ _ _ Hrun) as (r & Hr & ->).
  exists r. split; [exact Hr|]. split; intros Hlen.
  - now rewrite display_window_long.
  - now rewrite display_window_short.
Qed.

(** ** More on the keypair store *)

Section StoreListing.
Context `{Web3} `{Json}.
Variable env : Env.

Lemma load_async_run keyPath w :
  load_async keyPath w
  = (match Fs.readFileSync (fs w) keyPath with
     | Err e => Err e
     | Ok data =>
         match Keypair_fromSecretKey data with
         | Some kp => Ok kp
         | None => Err BadSecretKey
         end
     end, w).
Proof.
  unfold load_async, bind, read_fs, fromSecretKey.
  destruct (Fs.readFileSync _ _) as [data|e]; [|reflexivity].
  now destruct (Keypair_fromSecretKey data).
Qed.

Lemma load_async_Ok keyPath w kp :
  fst (load_async keyPath w) = Ok kp ->
  exists data,
    Fs.readFileSync (fs w) keyPath = Ok data
    /\ Keypair_fromSecretKey data = Some kp.
Proof.
  rewrite load_async_run. simpl.
  destruct (Fs.readFileSync _ _) as [data|e]; [|discriminate].
  destruct (Keypair_fromSecretKey data) as [kp'|] eqn:Hkp; [|discriminate].
  intros [= <-]. now exists data.
Qed.

Lemma Forall_pure_read_loads (paths : list Fs.path) :
  Forall pure_read (map load_async paths).
Proof.
  apply List.Forall_forall. intros p Hp.
  apply List.in_map_iff in Hp as (keyPath & <- & _). apply pure_read_load_async.
Qed.

(** A listing that succeeds has one identifier per directory entry. *)
Lemma keypairs_entries w ids :
  fst (keypairs env w) = Ok ids ->
  exists names,
    Fs.readdir (fs w) (KEYPAIR_DIR_PATH env) = Ok names
    /\ Forall2 (fun name id =>
                  exists data kp,
                    Fs.readFileSync (fs w) (key_path env name) = Ok data
                    /\ Keypair_fromSecretKey data = Some kp
                    /\ id = identifier kp) names ids.
Proof.
  rewrite keypairs_run. simpl.
  destruct (Fs.readdir _ _) as [names|e]; [|discriminate].
  destruct (fst (Promise_all _ w)) as [keys|e] eqn:Hall; [|discriminate].
  intros [= <-]. exists names. split; [reflexivity|].
  apply Promise_all_values in Hall; [|apply Forall_pure_read_loads].
  clear -Hall. revert keys Hall.
  induction names as [|name names IH]; intros keys Hall; simpl in Hall;
    inversion Hall as [|p kp ps kps Hkp Hrest]; subst; simpl; constructor.
  - destruct (load_async_Ok _ _ _ Hkp) as (data & Hread & Hkey).
    now exists data, kp.
  - now apply IH.
Qed.

(** When every entry loads, the listing succeeds. *)
Lemma Promise_all_fulfils {A} (ps : list (M A)) w :
  Forall pure_read ps ->
  Forall (fun p => is_Ok (fst (p w)) = true) ps ->
  is_Ok (fst (Promise_all ps w)) = true.
Proof.
  intros Hps. induction Hps as [|p ps Hp _ IH]; intros Hall; [reflexivity|].
  inversion Hall as [|? ? Hok Hrest]; subst. simpl.
  specialize (Hp w). destruct (p w) as [r w1]. simpl in *. subst w1.
  specialize (IH Hrest). destruct (Promise_all ps w) as [rs w2]. simpl in *.
  destruct r; [|discriminate]. now destruct rs.
Qed.

End StoreListing.

(** X9. A listing that succeeds has exactly one identifier per entry of the
    keys directory, in the order of the directory listing, and each
    identifier is computed from the bytes of the entry, not from its name. *)
Theorem keypairs_one_identifier_per_entry
  `{Web3} `{Json} (env : Env) (w : World) (ids : list string) :
  fst (keypairs env w) = Ok ids ->
  exists names,
    Fs.readdir (fs w) (KEYPAIR_DIR_PATH env) = Ok names
    /\ length ids = length names
    /\ Forall2 (fun name id =>
                  exists data kp,
                    Fs.readFileSync (fs w) (key_path env name) = Ok data
                    /\ Keypair_fromSecretKey data = Some kp
                    /\ id = identifier kp) names ids.
Proof.
  intros Hids. destruct (keypairs_entries env w ids Hids) as (names & Hdir & Hall).
  exists names. split; [exact Hdir|]. split; [|exact Hall].
  symmetry. eapply Forall2_length, Hall.
Qed.

(** X10. Listing the keypairs and loading one keypair only read: whatever
    their outcome they leave the file system, the random source and the trace
    as they were. *)
Theorem listing_and_loading_only_read
  `{Web3} `{Json} (env : Env) (pubKey : string) (w : World) :
  snd (keypairs env w) = w /\ snd (localKeypair env pubKey w) = w.
Proof.
  split; [apply pure_read_keypairs|apply pure_read_localKeypair].
Qed.

Section AddKeypair.
Context `{Web3} `{Json}.
Variable env : Env.

Lemma addKeypair_world w :
  snd (addKeypair env w)
  = match Fs.writeFileSync (fs w) (key_path env (identifier (generated env w)))
            (secretKey (generated env w)) with
    | Err _ => {| fs := fs w; draws := S (draws w); trace := trace w |}
    | Ok fsys => {| fs := fsys; draws := S (draws w); trace := trace w |}
    end.
Proof.
  rewrite addKeypair_run. unfold key_path.
  destruct (Fs.writeFileSync _ _ _) as [fsys|e]; [|reflexivity].
  apply pure_read_keypairs.
Qed.

End AddKeypair.


(** X12. A key that loads keeps loading, to the same keypair, after
    [addKeypair] has run, provided the identifier of the new keypair had no
    entry yet. *)
Theorem addKeypair_keeps_stored_keys
  `{Web3} `{Json} (env : Env) (w : World) (pubKey : string) (kp : Keypair) :
  fst (localKeypair env pubKey w) = Ok kp ->
  fs w !! key_path env (identifier (generated env w)) = None ->
  fst (localKeypair env pubKey (snd (addKeypair env w))) = Ok kp.
Proof.
  intros Hload Hfresh. rewrite addKeypair_world.
  destruct (Fs.writeFileSync _ _ _) as [fsys|e] eqn:Hwrite.
  - destruct (writeFileSync_Ok _ _ _ _ Hwrite) as (q & -> & _ & Hq).
    specialize (Hq Hfresh). subst q.
    rewrite localKeypair_run in *. simpl in *.
    destruct (Fs.readFileSync (fs w) (key_path env pubKey)) as [data|e] eqn:Hread;
      [|discriminate].
    rewrite (readFileSync_insert_absent _ _ _ _ data); [exact Hload| |exact Hread].
    unfold key_path in *. now rewrite node_at_join.
  - rewrite <- Hload. now apply localKeypair_same_fs.
Qed.


(** ** More on start-up *)

Section StartupFrame.
Variable env : Env.

Lemma ensure_dirs_Ok (fsys fsys' : gmap Fs.path Fs.node) :
  ensure_dirs env fsys = Ok fsys' ->
  fsys' = fsys
  \/ (fsys !! WORKBENCH_DIR_PATH env = None
      /\ fsys !! KEYPAIR_DIR_PATH env = None
      /\ fsys' = <[KEYPAIR_DIR_PATH env := Fs.Dir]>
                   (<[WORKBENCH_DIR_PATH env := Fs.Dir]> fsys)).
Proof.
  unfold ensure_dirs.
  destruct (Fs.existsSync fsys (WORKBENCH_DIR_PATH env)); simpl.
  - intros [= <-]. now left.
  - destruct (Fs.mkdirSync fsys (WORKBENCH_DIR_PATH env)) as [fsys1|e] eqn:Hroot;
      [|discriminate].
    intros Hkeys. right.
    apply mkdirSync_Ok in Hroot as [Hr ->].
    apply mkdirSync_Ok in Hkeys as [Hk ->].
    rewrite lookup_insert_ne in Hk
      by (unfold KEYPAIR_DIR_PATH; apply not_eq_sym, path_join_not_dir).
    now repeat split.
Qed.

Lemma keys_empty_after_creation (fsys : gmap Fs.path Fs.node) :
  Fs.well_formed fsys ->
  fsys !! KEYPAIR_DIR_PATH env = None ->
  keys_empty env
    (<[KEYPAIR_DIR_PATH env := Fs.Dir]> (<[WORKBENCH_DIR_PATH env := Fs.Dir]> fsys)).
Proof.
  intros Hwf Hkeys name. unfold key_path.
  rewrite lookup_insert_ne by (apply not_eq_sym, path_join_not_dir).
  rewrite lookup_insert_ne.
  - destruct (fsys !! Fs.path_join (KEYPAIR_DIR_PATH env) name) as [n|] eqn:Hp;
      [|reflexivity].
    destruct (Hwf _ _ Hp) as [_ Hparent]. rewrite dirname_join in Hparent.
    unfold KEYPAIR_DIR_PATH in Hparent, Hkeys. rewrite node_at_join in Hparent.
    congruence.
  - unfold KEYPAIR_DIR_PATH, WORKBENCH_DIR_PATH, Fs.path_join.
    intros E. apply (f_equal (@length string)) in E.
    rewrite !length_app in E. simpl in E. lia.
Qed.

End StartupFrame.

(** X14. Start-up never removes or replaces an entry: after a successful
    initialization every entry of the file system is still there, unchanged,
    and the only paths that can be new are the root directory and its keys
    subdirectory, both created as directories. *)
Theorem ensure_dirs_only_adds_directories
  (env : Env) (fsys fsys' : gmap Fs.path Fs.node) :
  ensure_dirs env fsys = Ok fsys' ->
  fsys ⊆ fsys'
  /\ forall p, fsys' !! p <> fsys !! p ->
       (p = WORKBENCH_DIR_PATH env \/ p = KEYPAIR_DIR_PATH env)
       /\ fsys !! p = None /\ fsys' !! p = Some Fs.Dir.
Proof.
  intros Hrun. destruct (ensure_dirs_Ok env _ _ Hrun) as [->|(Hroot & Hkeys & ->)].
  - split; [reflexivity|]. intros p Hne. congruence.
  - split.
    + etrans; [apply (insert_subseteq _ (WORKBENCH_DIR_PATH env) Fs.Dir Hroot)|].
      apply insert_subseteq. rewrite lookup_insert_ne; [exact Hkeys|].
      unfold KEYPAIR_DIR_PATH. apply not_eq_sym, path_join_not_dir.
    + intros p Hne.
      destruct (decide (p = KEYPAIR_DIR_PATH env)) as [->|Hpk].
      * rewrite lookup_insert_eq. auto.
      * rewrite lookup_insert_ne in Hne |- * by congruence.
        destruct (decide (p = WORKBENCH_DIR_PATH env)) as [->|Hpr].
        -- rewrite lookup_insert_eq. auto.
        -- rewrite lookup_insert_ne in Hne by congruence. congruence.
Qed.


(** ** Start-up followed by store operations *)

Section FreshStore.
Context `{Web3} `{Json}.
Variable env : Env.

Lemma keypairs_empty_store w :
  Fs.node_at (fs w) (KEYPAIR_DIR_PATH env) = Some Fs.Dir ->
  keys_empty env (fs w) ->
  keypairs env w = (Ok [], w).
Proof.
  intros Hdir Hempty. rewrite keypairs_run. unfold Fs.readdir.
  rewrite (follow_plain_dir _ _ _ Hdir).
  now rewrite (readdir_names_empty _ _ Hempty).
Qed.

Lemma addKeypair_empty_store `{!Web3Laws} w :
  Fs.node_at (fs w) (KEYPAIR_DIR_PATH env) = Some Fs.Dir ->
  keys_empty env (fs w) ->
  length (randomBytes env (draws w)) = 32%nat ->
  fst (addKeypair env w) = Ok [identifier (generated env w)].
Proof.
  intros Hdir Hempty Hseed.
  pose proof (Hempty (identifier (generated env w))) as Hfresh. unfold key_path in Hfresh.
  assert (Hwrite : Fs.writeFileSync (fs w)
                     (Fs.path_join (KEYPAIR_DIR_PATH env) (identifier (generated env w)))
                     (secretKey (generated env w))
                   = Ok (<[Fs.path_join (KEYPAIR_DIR_PATH env) (identifier (generated env w))
                           := Fs.File (secretKey (generated env w))]> (fs w))).
  { unfold Fs.writeFileSync. rewrite follow_absent by (now rewrite node_at_join).
    now rewrite dirname_join, Hdir. }
  rewrite addKeypair_run, Hwrite, keypairs_run. simpl.
  unfold Fs.readdir. rewrite follow_plain_dir.
  2:{ rewrite node_at_insert_ne; [exact Hdir|apply not_eq_sym, path_join_not_dir]. }
  pose proof (readdir_names_insert (fs w) (KEYPAIR_DIR_PATH env)
                (identifier (generated env w))
                (Fs.File (secretKey (generated env w))) Hfresh) as Hperm.
  rewrite (readdir_names_empty _ _ Hempty) in Hperm.
  apply Permutation_singleton_r in Hperm. rewrite Hperm. simpl.
  rewrite load_async_run. simpl.
  rewrite (readFileSync_writeFileSync _ _ _ _ Hwrite).
  pose proof (fromSecretKey_generated _ Hseed) as Hkey.
  fold (generated env w) in Hkey. now rewrite Hkey.
Qed.

End FreshStore.

(** X16. On a well-formed file system with a home directory and no root
    directory, start-up leaves a store whose listing is the empty list. *)
Theorem fresh_store_lists_nothing
  `{Web3} `{Json} (env : Env) (w : World) :
  Fs.well_formed (fs w) ->
  fs w !! WORKBENCH_DIR_PATH env = None ->
  Fs.node_at (fs w) (homedir env) = Some Fs.Dir ->
  exists w1,
    startup env w = (Ok tt, w1)
    /\ keypairs env w1 = (Ok [], w1).
Proof.
  intros Hwf Hroot Hhome. unfold startup, write_fs.
  rewrite (ensure_dirs_creates env _ Hwf Hroot Hhome).
  eexists. split; [reflexivity|].
  apply keypairs_empty_store; simpl.
  - apply store_initialized_after_creation.
  - apply keys_empty_after_creation; [exact Hwf|].
    now apply keys_absent_without_root.
Qed.

(** X17. On the same fresh system, start-up followed by [addKeypair] returns
    exactly one identifier, that of the keypair just generated. *)
Theorem first_keypair_is_the_only_one
  `{Web3} `{!Web3Laws} `{Json} (env : Env) (w : World) :
  Fs.well_formed (fs w) ->
  fs w !! WORKBENCH_DIR_PATH env = None ->
  Fs.node_at (fs w) (homedir env) = Some Fs.Dir ->
  length (randomBytes env (draws w)) = 32%nat ->
  exists w1,
    startup env w = (Ok tt, w1)
    /\ fst (addKeypair env w1) = Ok [identifier (generated env w1)].
Proof.
  intros Hwf Hroot Hhome Hseed. unfold startup, write_fs.
  rewrite (ensure_dirs_creates env _ Hwf Hroot Hhome).
  eexists. split; [reflexivity|].
  apply addKeypair_empty_store; try exact _; simpl.
  - apply store_initialized_after_creation.
  - apply keys_empty_after_creation; [exact Hwf|].
    now apply keys_absent_without_root.
  - exact Hseed.
Qed.

(** ** The listing grows with every new keypair *)

Section ListingGrows.
Context `{Web3} `{Json}.
Variable env : Env.

Lemma Forall2_In_right {A B} (R : A -> B -> Prop) l1 l2 y :
  Forall2 R l1 l2 -> In y l2 -> exists x, In x l1 /\ R x y.
Proof.
  induction 1 as [|x y' l1 l2 Hxy _ IH]; intros Hin; [contradiction|].
  destruct Hin as [->|Hin].
  - exists x. split; [now left|exact Hxy].
  - destruct (IH Hin) as (x' & Hx' & HR). exists x'. split; [now right|exact HR].
Qed.

Lemma readdir_plain (fsys : gmap Fs.path Fs.node) dir :
  Fs.node_at fsys dir = Some Fs.Dir ->
  Fs.readdir fsys dir
  = Ok (omap (fun kv : Fs.path * Fs.node => Fs.entry_name dir (fst kv))
          (map_to_list fsys)).
Proof. intros Hdir. unfold Fs.readdir. now rewrite (follow_plain_dir _ _ _ Hdir). Qed.

Lemma readdir_entry (fsys : gmap Fs.path Fs.node) dir names name :
  Fs.node_at fsys dir = Some Fs.Dir ->
  Fs.readdir fsys dir = Ok names ->
  In name names ->
  is_Some (fsys !! Fs.path_join dir name).
Proof.
  intros Hdir. rewrite (readdir_plain _ _ Hdir). intros [= <-] Hin.
  apply list_elem_of_In, list_elem_of_omap in Hin as ([k n] & Hkn & Hname).
  simpl in Hname. apply entry_name_inv in Hname as ->.
  apply elem_of_map_to_list in Hkn. eauto.
Qed.

Lemma addKeypair_listing_grows w ids0 ids1 :
  fs w !! key_path env (identifier (generated env w)) = None ->
  fst (keypairs env w) = Ok ids0 ->
  fst (addKeypair env w) = Ok ids1 ->
  incl ids0 ids1 /\ length ids1 = S (length ids0).
Proof.
  intros Hfresh Hids0. rewrite addKeypair_run.
  fold (key_path env (identifier (generated env w))).
  destruct (Fs.writeFileSync _ _ _) as [fsys|e] eqn:Hwrite; [|discriminate].
  set (w1 := {| fs := fsys; draws := S (draws w); trace := trace w |}).
  intros Hids1.
  (* the keys directory is a plain directory, before and after the write *)
  assert (Hdir : Fs.node_at (fs w) (KEYPAIR_DIR_PATH env) = Some Fs.Dir).
  { unfold Fs.writeFileSync in Hwrite.
    rewrite follow_absent in Hwrite by (unfold key_path; now rewrite node_at_join).
    unfold key_path in Hwrite. rewrite dirname_join in Hwrite.
    now destruct (Fs.node_at (fs w) (KEYPAIR_DIR_PATH env)) as [[| |]|]. }
  destruct (writeFileSync_Ok _ _ _ _ Hwrite) as (q & Hfsys & _ & Hq).
  specialize (Hq Hfresh). subst q.
  assert (Hdir1 : Fs.node_at fsys (KEYPAIR_DIR_PATH env) = Some Fs.Dir).
  { rewrite Hfsys, node_at_insert_ne; [exact Hdir|].
    unfold key_path. apply not_eq_sym, path_join_not_dir. }
  destruct (keypairs_entries env w ids0 Hids0) as (names0 & Hread0 & Hall0).
  destruct (keypairs_entries env w1 ids1 Hids1) as (names1 & Hread1 & Hall1).
  split.
  - intros id Hid.
    destruct (Forall2_In_right _ _ _ _ Hall0 Hid) as (name & Hname & data & kp & Hdata & Hkp & ->).
    destruct (readdir_entry _ _ _ _ Hdir Hread0 Hname) as [n Hn].
    apply (keypairs_lists_entry env w1 ids1 name kp); [exact Hids1|exact Hdir1| |].
    + simpl. rewrite Hfsys. rewrite lookup_insert_ne; [eauto|].
      unfold key_path in *. intros E. rewrite E in Hfresh. congruence.
    + rewrite load_async_run. simpl. rewrite Hfsys.
      rewrite (readFileSync_insert_absent _ _ _ _ data); [now rewrite Hkp| |exact Hdata].
      unfold key_path in *. now rewrite node_at_join.
  - rewrite <- (Forall2_length _ _ _ Hall0), <- (Forall2_length _ _ _ Hall1).
    rewrite (readdir_plain _ _ Hdir) in Hread0. injection Hread0 as <-.
    simpl in Hread1. rewrite (readdir_plain _ _ Hdir1) in Hread1.
    injection Hread1 as <-. rewrite Hfsys. unfold key_path in *.
    now rewrite (readdir_names_insert _ _ _ _ Hfresh).
Qed.

End ListingGrows.

(** X18. When the identifier of the new keypair has no entry yet, a
    successful [addKeypair] returns a list that holds every identifier listed
    before and has exactly one element more. *)
Theorem addKeypair_extends_the_listing
  `{Web3} `{Json} (env : Env) (w : World) (ids0 ids1 : list string) :
  fs w !! key_path env (identifier (generated env w)) = None ->
  fst (keypairs env w) = Ok ids0 ->
  fst (addKeypair env w) = Ok ids1 ->
  incl ids0 ids1 /\ length ids1 = S (length ids0).
Proof. apply addKeypair_listing_grows. Qed.

(** ** More on the dispatcher *)

Section DispatcherReplies.
Context `{Web3} `{Js.RegExpEngine} `{Json}.
Variable env : Env.

Lemma handle_FetchAnchorIdl_run programID w :
  handle env (FetchAnchorIdl programID) w
  = match exec_outcome default_maxBuffer
            (child_process env ("anchor idl fetch " +:+ programID)) with
    | Err e => (Err e, after (Exec ("anchor idl fetch " +:+ programID)) w)
    | Ok out =>
        match JSON_parse (stdout out) with
        | None => (Err SyntaxError, after (Exec ("anchor idl fetch " +:+ programID)) w)
        | Some idl =>
            (Ok tt, after (Reply "fetch-anchor-idl" (Parsed idl))
                      (after (Exec ("anchor idl fetch " +:+ programID)) w))
        end
    end.
Proof.
  unfold handle, exec_promisified, bind, emit, lift, after. simpl.
  destruct (exec_outcome _ _) as [out|e]; [|reflexivity].
  now destruct (JSON_parse (stdout out)).
Qed.

End DispatcherReplies.

(** X20. [fetch-anchor-idl] runs [anchor idl fetch] followed by the program
    identifier as it came in the message, and is answered exactly when that
    subprocess succeeds and its standard output parses as JSON; the answer is
    the parsed value.  What the subprocess writes on standard error plays no
    part in the answer. *)
Theorem fetch_anchor_idl_answers_parsed_stdout
  `{Web3} `{Js.RegExpEngine} `{Json} (env : Env) (programID : string) (w : World) :
  (is_Ok (fst (handle env (FetchAnchorIdl programID) w)) = true
   <-> is_Ok (exec_outcome default_maxBuffer
                (child_process env ("anchor idl fetch " +:+ programID))) = true
       /\ is_Some (JSON_parse
                     (stdout (child_process env ("anchor idl fetch " +:+ programID)))))
  /\ (forall idl,
        is_Ok (exec_outcome default_maxBuffer
                 (child_process env ("anchor idl fetch " +:+ programID))) = true ->
        JSON_parse (stdout (child_process env ("anchor idl fetch " +:+ programID)))
        = Some idl ->
        trace (snd (handle env (FetchAnchorIdl programID) w))
        = trace w ++ [Exec ("anchor idl fetch " +:+ programID);
                      Reply "fetch-anchor-idl" (Parsed idl)]).
Proof.
  rewrite handle_FetchAnchorIdl_run.
  destruct (exec_outcome _ _) as [out|e] eqn:Hout.
  - pose proof (exec_outcome_Ok _ _ _ Hout) as ->. split.
    + destruct (JSON_parse _) as [idl|]; simpl; split; eauto.
      * discriminate.
      * intros [_ [? ?]]. discriminate.
    + intros idl _ ->. simpl. now rewrite <- app_assoc.
  - split.
    + simpl. split; [discriminate|]. intros [? _]. discriminate.
    + intros idl ?. discriminate.
Qed.

(** ** The filter as a regular expression *)

Lemma is_ascii_split stderr :
  is_ascii stderr = true ->
  Forall (fun line => is_ascii line = true) (Js.split newline stderr).
Proof.
  induction stderr as [|c s IH]; intros Hs.
  - repeat constructor.
  - change (is_ascii (String c s)) with ((N_of_ascii c <? 128)%N && is_ascii s) in Hs.
    apply andb_true_iff in Hs as [Hc Hs]. specialize (IH Hs). simpl.
    destruct (Ascii.eqb c newline).
    + constructor; [reflexivity|exact IH].
    + destruct (Js.split newline s) as [|x xs].
      * constructor; [|constructor].
        change (is_ascii (String c EmptyString)) with ((N_of_ascii c <? 128)%N && true).
        now rewrite Hc.
      * inversion IH as [|? ? Hx Hxs]; subst. constructor; [|exact Hxs].
        change (is_ascii (String c x)) with ((N_of_ascii c <? 128)%N && is_ascii x).
        now rewrite Hc, Hx.
Qed.

Lemma filter_on_ascii_lines `{Js.RegExpEngine} `{!RegExpLaws} p r stderr :
  dot_pattern p = true ->
  Js.RegExp_new p = Some r ->
  is_ascii stderr = true ->
  List.filter (Js.RegExp_exec r) (Js.split newline stderr)
  = List.filter (wild_includes p) (Js.split newline stderr).
Proof.
  intros Hp Hr Hascii.
  destruct (dot_patterns p Hp) as (r' & Hr' & Hexec).
  assert (r' = r) as -> by congruence.
  apply List.filter_ext_in. intros line Hline.
  apply Hexec.
  pose proof (is_ascii_split stderr Hascii) as Hall.
  rewrite List.Forall_forall in Hall. now apply Hall.
Qed.

(** C10. The filter of [validatorLogs] is compiled as a regular expression
    and a line of the log is kept exactly when that expression matches
    somewhere in it; the returned text is made of the kept lines.  Regular
    expression metacharacters are significant: for a filter whose only
    special character is the dot, on an ASCII log, the kept lines are those
    in which the filter occurs with each dot standing for any character, not
    those that contain the filter as a literal text. *)
Theorem filter_is_a_regular_expression
  `{Js.RegExpEngine} `{!RegExpLaws} `{Json}
  (env : Env) (filter : string) (w w' : World) (text : string) :
  validatorLogs env filter w = (Ok text, w') ->
  exists r kept,
    Js.RegExp_new filter = Some r
    /\ matching_lines (stderr (logs_output env)) filter = Ok kept
    /\ (forall line,
          In line kept
          <-> In line (Js.split newline (stderr (logs_output env)))
              /\ Js.RegExp_exec r line = true)
    /\ kept = List.filter (Js.RegExp_exec r)
                (Js.split newline (stderr (logs_output env)))
    /\ text = Js.join nl (display_window kept)
    /\ (dot_pattern filter = true ->
        is_ascii (stderr (logs_output env)) = true ->
        kept = List.filter (wild_includes filter)
                 (Js.split newline (stderr (logs_output env)))).
Proof.
  intros Hrun. destruct (validatorLogs_window env _ _ _ _ Hrun) as (r & Hr & ->).
  exists r, (matched r env). unfold matched.
  split; [exact Hr|]. split; [now apply matching_lines_compiled|].
  split; [intros line; apply List.filter_In|].
  split; [reflexivity|]. split; [reflexivity|].
  intros Hp Hascii. now apply filter_on_ascii_lines.
Qed.

(** ** The properties on sample worlds *)

Import MiniRegExp ToyWeb3.

Lemma validatorLogs_at_most_30_matching_lines_witness :
  exists text w',
    validatorLogs Demo.env "ERROR" (Demo.world Demo.fs_ready) = (Ok text, w')
    /\ (length (Js.split newline text) <= 30)%nat
    /\ (length (text_lines text) <= 30)%nat
    /\ Forall (fun s => Js.String_match s "ERROR" = Ok true) (text_lines text).
Proof.
  eexists _, _. split.
  - vm_compute. reflexivity.
  - eapply (validatorLogs_at_most_30_matching_lines
              Demo.env "ERROR" (Demo.world Demo.fs_ready)).
    vm_compute. reflexivity.
Defined.

Lemma validatorLogs_ignores_stdout_witness :
  validatorLogs (Demo.env_with "PROGRESS 42%" Demo.sample_log) "ERROR"
    (Demo.world Demo.fs_ready)
  = validatorLogs (Demo.env_with "" Demo.sample_log) "ERROR"
      (Demo.world Demo.fs_ready).
Proof.
  apply (validatorLogs_ignores_stdout
           (Demo.env_with "PROGRESS 42%" Demo.sample_log)
           (Demo.env_with "" Demo.sample_log) "ERROR" (Demo.world Demo.fs_ready)).
  - reflexivity.
  - reflexivity.
  - vm_compute. discriminate.
  - vm_compute. discriminate.
Defined.

(** C4, on the code.  The sample log has 5 lines matching [ERROR] and 50 that
    do not; [validatorLogs] returns 4 of the 5: the window starts at index 1,
    so the oldest matching line is left out. *)
Theorem validatorLogs_drops_oldest_match :
  @matching_lines MiniRegExp.engine Demo.sample_log "ERROR" = Ok Demo.error_lines
  /\ length (Js.split newline Demo.sample_log) = 55%nat
  /\ fst (validatorLogs Demo.env "ERROR" (Demo.world Demo.fs_ready))
     = Ok (Js.join nl ["ERROR 2"; "ERROR 3"; "ERROR 4"; "ERROR 5"]).
Proof. repeat split; vm_compute; reflexivity. Qed.

Lemma toy_web3_laws : Web3Laws.
Proof.
  constructor. intros seed Hlen. simpl.
  unfold ToyWeb3.fromSecretKey, ToyWeb3.fromSeed, ToyWeb3.derive. simpl.
  rewrite decide_True.
  - rewrite drop_app_length' by lia. reflexivity.
  - split.
    + rewrite length_app, length_rev. lia.
    + rewrite drop_app_length', take_app_length' by lia. reflexivity.
Qed.

Lemma well_formed_checked (fsys : gmap Fs.path Fs.node) :
  map_Forall (fun p _ => p <> [] /\ Fs.node_at fsys (Fs.dirname p) = Some Fs.Dir) fsys ->
  Fs.well_formed fsys.
Proof. intros Hall p n Hp. exact (Hall p n Hp). Qed.

Lemma fs_fresh_well_formed : Fs.well_formed Demo.fs_fresh.
Proof. apply well_formed_checked, (bool_decide_unpack _). vm_compute. reflexivity. Qed.

Lemma fs_ready_well_formed : Fs.well_formed Demo.fs_ready.
Proof. apply well_formed_checked, (bool_decide_unpack _). vm_compute. reflexivity. Qed.

Lemma generated_keypair_loads_back_witness :
  exists kp,
    localKeypair Demo.env (identifier (generated Demo.env (Demo.world Demo.fs_ready)))
      (snd (addKeypair Demo.env (Demo.world Demo.fs_ready)))
    = (Ok kp, snd (addKeypair Demo.env (Demo.world Demo.fs_ready)))
    /\ secretKey kp = secretKey (generated Demo.env (Demo.world Demo.fs_ready)).
Proof.
  refine (proj1 (proj2
    (@generated_keypair_loads_back _ toy_web3_laws _ Demo.env
       (Demo.world Demo.fs_ready)
       (snd (addKeypair Demo.env (Demo.world Demo.fs_ready)))
       [identifier (generated Demo.env (Demo.world Demo.fs_ready))] _ _))).
  - vm_compute. reflexivity.
  - vm_compute. reflexivity.
Defined.


Lemma ensure_dirs_guarded_by_root_witness :
  ensure_dirs Demo.env Demo.fs_ready = Ok Demo.fs_ready
  /\ exists fsys',
       ensure_dirs Demo.env Demo.fs_fresh = Ok fsys'
       /\ store_initialized Demo.env fsys'.
Proof.
  split.
  - apply (proj1 (ensure_dirs_guarded_by_root Demo.env Demo.fs_ready)).
    vm_compute. reflexivity.
  - apply (proj1 (proj2 (proj2 (ensure_dirs_guarded_by_root Demo.env Demo.fs_fresh)))).
    + exact fs_fresh_well_formed.
    + vm_compute. reflexivity.
    + vm_compute. reflexivity.
Defined.

(** C6, as worded, fails: when the root directory exists and its [keys]
    subdirectory does not, initialization succeeds, changes nothing, and
    leaves the store without its [keys] directory. *)
Lemma root_without_keys_stays_uninitialized :
  ensure_dirs Demo.env Demo.fs_root_only = Ok Demo.fs_root_only
  /\ Fs.existsSync Demo.fs_root_only (KEYPAIR_DIR_PATH Demo.env) = false
  /\ ~ (exists fsys',
          ensure_dirs Demo.env Demo.fs_root_only = Ok fsys'
          /\ store_initialized Demo.env fsys').
Proof.
  assert (Hrun : ensure_dirs Demo.env Demo.fs_root_only = Ok Demo.fs_root_only).
  { apply ensure_dirs_noop. vm_compute. reflexivity. }
  split; [exact Hrun|]. split; [vm_compute; reflexivity|].
  intros (fsys' & Hrun' & _ & Hkeys).
  rewrite Hrun in Hrun'. injection Hrun' as <-.
  vm_compute in Hkeys. discriminate.
Qed.

(** C1, as worded, fails: an [airdrop] request for an identifier that has no
    key file gets no reply, since [localKeypair] rejects and nothing in the
    handler catches the rejection. *)
Lemma airdrop_request_unanswered :
  fst (handle Demo.env (Airdrop "nobody" 1) (Demo.world Demo.fs_ready)) = Err ENOENT
  /\ replies (trace (snd (handle Demo.env (Airdrop "nobody" 1)
                            (Demo.world Demo.fs_ready)))) = []
  /\ ~ replies_exactly_once Demo.env (Airdrop "nobody" 1) (Demo.world Demo.fs_ready).
Proof.
  split; [vm_compute; reflexivity|]. split; [vm_compute; reflexivity|].
  intros (new & Htrace & Hlen).
  vm_compute in Htrace. subst new. vm_compute in Hlen. discriminate.
Qed.

(** C2, on the code.  With one key file and one subdirectory in the keys
    directory, [keypairs] fails with EISDIR instead of listing the one key:
    the filter keeps the subdirectory, and reading it as a file throws.
    Without the subdirectory the same store lists its key. *)
Theorem keypairs_fails_on_subdirectory :
  Fs.stat Demo.fs_key_and_subdir (Demo.keys ++ ["backup"])
  = Ok {| Fs.isFile := false; Fs.isDirectory := true |}
  /\ fst (keypairs Demo.env (Demo.world Demo.fs_key_and_subdir)) = Err EISDIR
  /\ fst (keypairs Demo.env (Demo.world Demo.fs_one_key)) = Ok [Demo.stored_id].
Proof. repeat split; vm_compute; reflexivity. Qed.

(** ** The further properties on sample worlds *)



Lemma init_keypairs_airdrop_keep_the_file_system_witness :
  fs (snd (handle Demo.env (Airdrop Demo.stored_id 2) (Demo.world Demo.fs_one_key)))
  = fs (Demo.world Demo.fs_one_key).
Proof.
  apply (init_keypairs_airdrop_keep_the_file_system Demo.env (Airdrop Demo.stored_id 2)
           (Demo.world Demo.fs_one_key)).
  right. right. exists Demo.stored_id, 2. reflexivity.
Defined.

Lemma store_requests_make_no_rpc_call_witness :
  exists new,
    trace (snd (handle Demo.env AddKeypair (Demo.world Demo.fs_ready)))
    = trace (Demo.world Demo.fs_ready) ++ new
    /\ network_calls new = [].
Proof.
  apply (store_requests_make_no_rpc_call Demo.env AddKeypair
           (Demo.world Demo.fs_ready)).
  right. reflexivity.
Defined.

Lemma store_and_rpc_requests_start_no_process_witness :
  exists new,
    trace (snd (handle Demo.env (Airdrop Demo.stored_id 2) (Demo.world Demo.fs_one_key)))
    = trace (Demo.world Demo.fs_one_key) ++ new
    /\ List.filter is_exec new = [].
Proof.
  apply (store_and_rpc_requests_start_no_process Demo.env (Airdrop Demo.stored_id 2)
           (Demo.world Demo.fs_one_key)).
  right. right. right. exists Demo.stored_id, 2. reflexivity.
Defined.

Lemma answered_on_own_channel_except_airdrop_witness :
  exists new p,
    trace (snd (handle Demo.env (Airdrop Demo.stored_id 2) (Demo.world Demo.fs_one_key)))
    = trace (Demo.world Demo.fs_one_key) ++ new
    /\ replies new = [Reply "airdrop success" p]
    /\ p = NoArgs.
Proof.
  destruct (answered_on_own_channel_except_airdrop Demo.env (Airdrop Demo.stored_id 2)
              (Demo.world Demo.fs_one_key))
    as (new & p & Htrace & Hreplies & Hair & _).
  - vm_compute. reflexivity.
  - exists new, p. split; [exact Htrace|]. split; [exact Hreplies|].
    exact (proj1 (Hair Demo.stored_id 2 eq_refl)).
Defined.

Lemma airdrop_requests_then_confirms_witness :
  exists new,
    trace (snd (airdropTokens Demo.env Demo.stored_id 2 (Demo.world Demo.fs_one_key)))
    = trace (Demo.world Demo.fs_one_key) ++ new
    /\ fst (airdropTokens Demo.env Demo.stored_id 2 (Demo.world Demo.fs_one_key)) = Ok tt
    /\ network_calls new
       = [Rpc (RequestAirdrop (publicKey Demo.stored) 2000000000);
          Rpc (ConfirmTransaction "signature")].
Proof.
  assert (Hkey : fst (localKeypair Demo.env Demo.stored_id (Demo.world Demo.fs_one_key))
                 = Ok Demo.stored) by (vm_compute; reflexivity).
  assert (Hsol : exact_lamports 2) by (vm_compute; discriminate).
  destruct (airdrop_requests_then_confirms Demo.env Demo.stored_id 2
              (Demo.world Demo.fs_one_key) Demo.stored Hsol Hkey)
    as (new & Htrace & Hrest).
  exists new. split; [exact Htrace|exact Hrest].
Defined.

Lemma airdrop_stops_when_key_does_not_load_witness :
  fst (airdropTokens Demo.env "broken" 2 (Demo.world Demo2.fs_broken_key))
  = Err BadSecretKey
  /\ network_calls
       (trace (snd (airdropTokens Demo.env "broken" 2 (Demo.world Demo2.fs_broken_key))))
     = network_calls (trace (Demo.world Demo2.fs_broken_key))
  /\ fs (snd (airdropTokens Demo.env "broken" 2 (Demo.world Demo2.fs_broken_key)))
     = fs (Demo.world Demo2.fs_broken_key).
Proof.
  apply (airdrop_stops_when_key_does_not_load Demo.env "broken" 2
           (Demo.world Demo2.fs_broken_key) BadSecretKey).
  vm_compute. reflexivity.
Defined.

Lemma validatorLogs_window_of_matches_witness :
  exists r,
    Js.RegExp_new "ERROR" = Some r
    /\ ((31 <= length (matched r Demo2.env_long))%nat ->
        Js.join nl (map (fun n : nat => "ERROR " +:+ pretty n) (List.seq 11%nat 30%nat))
        = Js.join nl (drop (length (matched r Demo2.env_long) - 30)
                        (matched r Demo2.env_long)))
    /\ ((length (matched r Demo2.env_long) <= 31)%nat ->
        Js.join nl (map (fun n : nat => "ERROR " +:+ pretty n) (List.seq 11%nat 30%nat))
        = Js.join nl (tail (matched r Demo2.env_long))).
Proof.
  apply (validatorLogs_window_of_matches Demo2.env_long "ERROR"
           (Demo.world Demo.fs_ready)
           (snd (validatorLogs Demo2.env_long "ERROR" (Demo.world Demo.fs_ready)))).
  vm_compute. reflexivity.
Defined.

Lemma keypairs_one_identifier_per_entry_witness :
  exists names,
    Fs.readdir (fs (Demo.world Demo2.fs_alias)) (KEYPAIR_DIR_PATH Demo.env) = Ok names
    /\ length [Demo.stored_id] = length names
    /\ Forall2 (fun name id =>
                  exists data kp,
                    Fs.readFileSync (fs (Demo.world Demo2.fs_alias))
                      (key_path Demo.env name) = Ok data
                    /\ Keypair_fromSecretKey data = Some kp
                    /\ id = identifier kp) names [Demo.stored_id].
Proof.
  apply (keypairs_one_identifier_per_entry Demo.env (Demo.world Demo2.fs_alias)
           [Demo.stored_id]).
  vm_compute. reflexivity.
Defined.

Lemma addKeypair_keeps_stored_keys_witness :
  fst (localKeypair Demo.env Demo.stored_id
         (snd (addKeypair Demo.env (Demo.world Demo.fs_one_key))))
  = Ok Demo.stored.
Proof.
  apply (addKeypair_keeps_stored_keys Demo.env (Demo.world Demo.fs_one_key)
           Demo.stored_id Demo.stored).
  - vm_compute. reflexivity.
  - vm_compute. reflexivity.
Defined.


Lemma ensure_dirs_only_adds_directories_witness :
  Demo.fs_fresh ⊆ Demo.fs_ready
  /\ forall p, Demo.fs_ready !! p <> Demo.fs_fresh !! p ->
       (p = WORKBENCH_DIR_PATH Demo.env \/ p = KEYPAIR_DIR_PATH Demo.env)
       /\ Demo.fs_fresh !! p = None /\ Demo.fs_ready !! p = Some Fs.Dir.
Proof.
  apply (ensure_dirs_only_adds_directories Demo.env Demo.fs_fresh Demo.fs_ready).
  vm_compute. reflexivity.
Defined.


Lemma fresh_store_lists_nothing_witness :
  exists w1,
    startup Demo.env (Demo.world Demo.fs_fresh) = (Ok tt, w1)
    /\ keypairs Demo.env w1 = (Ok [], w1).
Proof.
  apply (fresh_store_lists_nothing Demo.env (Demo.world Demo.fs_fresh)).
  - exact fs_fresh_well_formed.
  - vm_compute. reflexivity.
  - vm_compute. reflexivity.
Defined.

Lemma first_keypair_is_the_only_one_witness :
  exists w1,
    startup Demo.env (Demo.world Demo.fs_fresh) = (Ok tt, w1)
    /\ fst (addKeypair Demo.env w1) = Ok [identifier (generated Demo.env w1)].
Proof.
  apply (@first_keypair_is_the_only_one _ toy_web3_laws _ Demo.env
           (Demo.world Demo.fs_fresh)).
  - exact fs_fresh_well_formed.
  - vm_compute. reflexivity.
  - vm_compute. reflexivity.
  - vm_compute. reflexivity.
Defined.

Lemma addKeypair_extends_the_listing_witness :
  incl [Demo.stored_id]
    [Demo.stored_id; identifier (generated Demo.env (Demo.world Demo.fs_one_key))]
  /\ length [Demo.stored_id; identifier (generated Demo.env (Demo.world Demo.fs_one_key))]
     = S (length [Demo.stored_id]).
Proof.
  apply (addKeypair_extends_the_listing Demo.env (Demo.world Demo.fs_one_key)).
  - vm_compute. reflexivity.
  - vm_compute. reflexivity.
  - vm_compute. reflexivity.
Defined.

(** ** The stand-in engine obeys the law of dot patterns *)

Section MiniRegExpCorrect.
Import MiniRegExpLang.

Lemma nullable_lang r : nullable r = true <-> lang r [].
Proof.
  induction r; simpl.
  - split; [discriminate|]. intros Hl. inversion Hl.
  - split; [constructor|reflexivity].
  - split; [discriminate|]. intros Hl. inversion Hl.
  - split; [discriminate|]. intros Hl. inversion Hl.
  - split; [discriminate|]. intros Hl. inversion Hl.
  - rewrite andb_true_iff, IHr1, IHr2. split.
    + intros [H1 H2]. change (@nil ascii) with (@nil ascii ++ []). now constructor.
    + intros Hl. inversion Hl; subst.
      match goal with H : _ ++ _ = [] |- _ => apply app_eq_nil in H as [-> ->] end.
      now split.
  - rewrite orb_true_iff, IHr1, IHr2. split.
    + intros [H1|H2]; [now apply lang_Alt_l|now apply lang_Alt_r].
    + intros Hl. inversion Hl; subst; [now left|now right].
  - split; [constructor|reflexivity].
Qed.

Lemma lang_Never s : ~ lang Never s.
Proof. intros H. inversion H. Qed.

Lemma lang_seq a b s : lang (seq a b) s <-> lang (Seq a b) s.
Proof.
  unfold seq. destruct a; destruct b; try reflexivity; split; intros Hl;
    try (now apply lang_Never in Hl);
    try (inversion Hl; subst;
         match goal with H : lang Never _ |- _ => now apply lang_Never in H end);
    try (change s with ([] ++ s); constructor; [constructor|exact Hl]);
    try (inversion Hl as [| | | |? ? s1 s2 H1 H2| | | |]; subst; inversion H1; subst;
         exact H2).
Qed.

Lemma lang_alt a b s : lang (alt a b) s <-> lang (Alt a b) s.
Proof.
  unfold alt. destruct a; destruct b; try reflexivity; split; intros Hl;
    try (now apply lang_Never in Hl);
    try (apply lang_Alt_l; exact Hl); try (apply lang_Alt_r; exact Hl);
    try (inversion Hl; subst; try assumption;
         match goal with H : lang Never _ |- _ => now apply lang_Never in H end).
Qed.

Lemma lang_Star_cons a c s :
  lang (Star a) (c :: s) ->
  exists s1 s2, s = s1 ++ s2 /\ lang a (c :: s1) /\ lang (Star a) s2.
Proof.
  intros Hl. remember (Star a) as r eqn:Hr. remember (c :: s) as t eqn:Ht.
  revert c s Ht. induction Hl; intros c' s' Ht; try discriminate.
  injection Hr as ->. destruct s1 as [|d s1].
  - simpl in Ht. now apply IHHl2.
  - simpl in Ht. injection Ht as -> <-. now exists s1, s2.
Qed.

Lemma lang_Seq_cons r1 r2 c s :
  lang (Seq r1 r2) (c :: s)
  <-> (exists s1 s2, s = s1 ++ s2 /\ lang r1 (c :: s1) /\ lang r2 s2)
      \/ (lang r1 [] /\ lang r2 (c :: s)).
Proof.
  split.
  - intros Hl. inversion Hl as [| | | |? ? s1 s2 H1 H2 [Ha Hb]| | | |]; subst.
    destruct s1 as [|d s1].
    + right. simpl in *. subst. now split.
    + left. simpl in *.
      match goal with E : _ :: _ = _ :: _ |- _ => injection E as -> <- end.
      now exists s1, s2.
  - intros [(s1 & s2 & -> & H1 & H2)|[H1 H2]].
    + change (c :: s1 ++ s2) with ((c :: s1) ++ s2). now constructor.
    + change (c :: s) with ([] ++ c :: s). now constructor.
Qed.

(** The derivative with respect to [c] recognises what is left of a word of
    the expression that starts with [c]. *)
Lemma deriv_lang c r s : lang (deriv c r) s <-> lang r (c :: s).
Proof.
  revert s. induction r; intros s; simpl.
  - split; intros Hl; inversion Hl.
  - split; intros Hl; inversion Hl.
  - destruct (Ascii.eqb_spec c0 c) as [->|Hne]; split; intros Hl.
    + inversion Hl; subst. constructor.
    + inversion Hl; subst. constructor.
    + inversion Hl.
    + inversion Hl; subst. congruence.
  - destruct (negb _) eqn:Hacc; split; intros Hl.
    + inversion Hl; subst. now constructor.
    + inversion Hl; subst. constructor.
    + inversion Hl.
    + inversion Hl; subst. simpl in *. congruence.
  - split; intros Hl.
    + inversion Hl; subst. constructor.
    + inversion Hl; subst. constructor.
  - assert (Hseq : lang (seq (deriv c r1) r2) s <->
                   exists s1 s2, s = s1 ++ s2 /\ lang r1 (c :: s1) /\ lang r2 s2).
    { rewrite lang_seq. split.
      - intros Hl. inversion Hl; subst. eexists _, _. split; [reflexivity|].
        split; [now apply IHr1|assumption].
      - intros (s1 & s2 & -> & H1 & H2). constructor; [now apply IHr1|assumption]. }
    rewrite lang_Seq_cons. destruct (nullable r1) eqn:Hn.
    + rewrite lang_alt. split.
      * intros Hl. inversion Hl; subst.
        -- left. now apply Hseq.
        -- right. split; [now apply nullable_lang|now apply IHr2].
      * intros [Hl|[_ Hl]].
        -- apply lang_Alt_l. now apply Hseq.
        -- apply lang_Alt_r. now apply IHr2.
    + rewrite Hseq. split; [now left|].
      intros [Hl|[Hl _]]; [assumption|].
      apply nullable_lang in Hl. congruence.
  - rewrite lang_alt. split; intros Hl; inversion Hl; subst.
    + apply lang_Alt_l. now apply IHr1.
    + apply lang_Alt_r. now apply IHr2.
    + apply lang_Alt_l. now apply IHr1.
    + apply lang_Alt_r. now apply IHr2.
  - rewrite lang_seq. split.
    + intros Hl. inversion Hl; subst.
      change (c :: s1 ++ s2) with ((c :: s1) ++ s2). constructor; [now apply IHr|assumption].
    + intros Hl. apply lang_Star_cons in Hl as (s1 & s2 & -> & H1 & H2).
      constructor; [now apply IHr|assumption].
Qed.

Lemma matches_lang r s : matches r s = true <-> lang r (list_ascii_of_string s).
Proof.
  revert r. induction s as [|c s IH]; intros r; simpl.
  - apply nullable_lang.
  - rewrite IH. apply deriv_lang.
Qed.

Lemma lang_Star_AnyChr s : lang (Star AnyChr) s.
Proof.
  induction s as [|c s IH]; [constructor|].
  change (c :: s) with ([c] ++ s). constructor; [constructor|exact IH].
Qed.

Lemma search_lang r s :
  search r s = true
  <-> exists s1 s2 s3, list_ascii_of_string s = s1 ++ s2 ++ s3 /\ lang r s2.
Proof.
  unfold search. rewrite matches_lang. split.
  - intros Hl. inversion Hl as [| | | |? ? s1 t Hs1 Ht| | | |]; subst.
    inversion Ht as [| | | |? ? s2 s3 Hs2 Hs3| | | |]; subst.
    now exists s1, s2, s3.
  - intros (s1 & s2 & s3 & -> & Hl).
    constructor; [apply lang_Star_AnyChr|].
    constructor; [exact Hl|apply lang_Star_AnyChr].
Qed.

Lemma lang_atom c s : lang (atom c) s <-> exists d, s = [d] /\ wild_char c d = true.
Proof.
  unfold atom, wild_char. destruct (Ascii.eqb_spec c "."%char) as [->|Hne]; split.
  - intros Hl. inversion Hl; subst. now eexists.
  - intros (d & -> & Hd). now constructor.
  - intros Hl. inversion Hl; subst. exists c. split; [reflexivity|apply Ascii.eqb_refl].
  - intros (d & -> & Hd). apply Ascii.eqb_eq in Hd as ->. constructor.
Qed.

Lemma chain_lang p s : lang (chain p) s <-> wild_equal p s = true.
Proof.
  revert s. induction p as [|c p IH]; intros s; simpl.
  - split.
    + intros Hl. inversion Hl. reflexivity.
    + destruct s; [constructor|discriminate].
  - split.
    + intros Hl. inversion Hl as [| | | |? ? s1 s2 H1 H2| | | |]; subst.
      apply lang_atom in H1 as (d & -> & Hd). simpl.
      rewrite Hd. now apply IH.
    + destruct s as [|d s]; [discriminate|].
      intros Hw. apply andb_true_iff in Hw as [Hd Hw].
      change (d :: s) with ([d] ++ s). constructor.
      * apply lang_atom. now exists d.
      * now apply IH.
Qed.

Lemma wild_prefix_spec p s :
  wild_prefix p s = true
  <-> exists s2 s3,
        list_ascii_of_string s = s2 ++ s3
        /\ wild_equal (list_ascii_of_string p) s2 = true.
Proof.
  revert s. induction p as [|c p IH]; intros s; simpl.
  - split; [|reflexivity]. intros _. now exists [], (list_ascii_of_string s).
  - destruct s as [|d s]; simpl.
    + split; [discriminate|]. intros (s2 & s3 & Heq & Hw).
      symmetry in Heq. apply app_eq_nil in Heq as [-> ->]. discriminate.
    + rewrite andb_true_iff, IH. split.
      * intros (Hd & s2 & s3 & -> & Hw). exists (d :: s2), s3.
        split; [reflexivity|]. simpl. now rewrite Hd.
      * intros (s2 & s3 & Heq & Hw). destruct s2 as [|d' s2]; [discriminate|].
        simpl in Heq. injection Heq as <- ->. simpl in Hw.
        apply andb_true_iff in Hw as [Hd Hw]. split; [exact Hd|]. now exists s2, s3.
Qed.

Lemma wild_includes_spec p s :
  wild_includes p s = true
  <-> exists s1 s2 s3,
        list_ascii_of_string s = s1 ++ s2 ++ s3
        /\ wild_equal (list_ascii_of_string p) s2 = true.
Proof.
  induction s as [|d s IH].
  - simpl. rewrite orb_false_r, wild_prefix_spec. split.
    + intros (s2 & s3 & Heq & Hw). now exists [], s2, s3.
    + intros (s1 & s2 & s3 & Heq & Hw). symmetry in Heq.
      apply app_eq_nil in Heq as [-> Heq]. now exists s2, s3.
  - change (wild_includes p (String d s))
      with (wild_prefix p (String d s) || wild_includes p s).
    rewrite orb_true_iff, wild_prefix_spec, IH. split.
    + intros [(s2 & s3 & Heq & Hw)|(s1 & s2 & s3 & Heq & Hw)].
      * now exists [], s2, s3.
      * exists (d :: s1), s2, s3. simpl. now rewrite Heq.
    + intros (s1 & s2 & s3 & Heq & Hw). destruct s1 as [|d' s1].
      * left. now exists s2, s3.
      * right. simpl in Heq. injection Heq as _ Heq. now exists s1, s2, s3.
Qed.

(** Searching for the expression of a dot pattern is looking for the pattern
    with its dots as wildcards. *)
Lemma search_chain p s :
  search (chain (list_ascii_of_string p)) s = wild_includes p s.
Proof.
  apply eq_true_iff_eq. rewrite search_lang, wild_includes_spec.
  split; intros (s1 & s2 & s3 & Heq & Hl); exists s1, s2, s3;
    (split; [exact Heq|]); now apply chain_lang.
Qed.

Lemma parse_atom_pattern_character c fuel rest :
  pattern_character c = true ->
  parse_atom (S fuel) (c :: rest) = Some (atom c, rest).
Proof.
  destruct c as [[] [] [] [] [] [] [] []]; intros Hc; vm_compute in Hc;
    try discriminate; reflexivity.
Qed.

Lemma parse_alternative_pattern_character c fuel rest :
  pattern_character c = true ->
  parse_alternative (S fuel) (c :: rest)
  = match parse_atom fuel (c :: rest) with
    | None => None
    | Some (a, rest1) =>
        match parse_quantifier a rest1 with
        | (t, rest') =>
            match parse_alternative fuel rest' with
            | Some (r, rest'') => Some (Seq t r, rest'')
            | None => None
            end
        end
    end.
Proof.
  destruct c as [[] [] [] [] [] [] [] []]; intros Hc; vm_compute in Hc;
    try discriminate; reflexivity.
Qed.

Lemma parse_quantifier_pattern a rest :
  forallb pattern_character rest = true ->
  parse_quantifier a rest = (a, rest).
Proof.
  destruct rest as [|c rest]; [reflexivity|]. simpl.
  intros Hc. apply andb_true_iff in Hc as [Hc _]. revert Hc.
  destruct c as [[] [] [] [] [] [] [] []]; intros Hc; vm_compute in Hc;
    try discriminate; reflexivity.
Qed.

Lemma parse_alternative_chain p fuel :
  forallb pattern_character p = true ->
  (length p <= fuel)%nat ->
  parse_alternative (S fuel) p = Some (chain p, []).
Proof.
  revert fuel. induction p as [|c p IH]; intros fuel Hp Hfuel; [reflexivity|].
  simpl in Hp. apply andb_true_iff in Hp as [Hc Hp].
  rewrite parse_alternative_pattern_character by exact Hc.
  simpl in Hfuel. destruct fuel as [|fuel]; [lia|].
  rewrite parse_atom_pattern_character by exact Hc.
  rewrite parse_quantifier_pattern by exact Hp.
  rewrite IH; [reflexivity|exact Hp|lia].
Qed.

(** A dot pattern compiles, to the chain of its characters. *)
Lemma compile_dot_pattern p :
  dot_pattern p = true -> compile p = Some (chain (list_ascii_of_string p)).
Proof.
  intros Hp. unfold compile.
  set (s := list_ascii_of_string p).
  replace (4 * length s + 4)%nat with (S (S (4 * length s + 2))) by lia.
  change (parse_disjunction (S (S (4 * length s + 2))) s)
    with (match parse_alternative (S (4 * length s + 2)) s with
          | Some (r, "|"%char :: rest) =>
              match parse_disjunction (S (4 * length s + 2)) rest with
              | Some (r', rest') => Some (Alt r r', rest')
              | None => None
              end
          | other => other
          end).
  rewrite parse_alternative_chain; [reflexivity|exact Hp|lia].
Qed.

Lemma mini_regexp_laws : @RegExpLaws MiniRegExp.engine.
Proof.
  constructor. intros p Hp. exists (chain (list_ascii_of_string p)). split.
  - now apply compile_dot_pattern.
  - intros s _. apply search_chain.
Qed.

End MiniRegExpCorrect.

Lemma filter_is_a_regular_expression_witness :
  exists kept,
    @matching_lines MiniRegExp.engine Demo3.dotted_log "a.c" = Ok kept
    /\ kept = List.filter (wild_includes "a.c") (Js.split newline Demo3.dotted_log)
    /\ kept = ["abc"; "abc"; "a.c"]
    /\ Js.join nl ["abc"; "a.c"] = Js.join nl (display_window kept)
    /\ Js.String_includes "abc" "a.c" = false.
Proof.
  destruct (@filter_is_a_regular_expression MiniRegExp.engine mini_regexp_laws _
              Demo3.env_dotted "a.c" (Demo.world Demo.fs_ready)
              (snd (validatorLogs Demo3.env_dotted "a.c" (Demo.world Demo.fs_ready)))
              (Js.join nl ["abc"; "a.c"]))
    as (r & kept & Hr & Hkept & Hin & Hfilter & Htext & Hwild).
  - vm_compute. reflexivity.
  - exists kept. split; [exact Hkept|].
    pose proof (Hwild eq_refl eq_refl) as Hlaw.
    split; [exact Hlaw|]. split; [rewrite Hlaw; reflexivity|].
    split; [exact Htext|reflexivity].
Defined.
